(** * libbitcoin: transaction helpers (src/transaction.cpp)

    A shallow embedding of the functions of [transaction.cpp] and the
    properties its specification states about them: merkle tree
    building, coinbase detection, output totals, finality, and output
    selection.

    Conventions.
    - [uintN_t] values are integers in [Z]; every place where C++
      arithmetic or an implicit conversion wraps is written out with
      [to_uint32] / [to_uint64].
    - [std::vector<T>] is [list T]; [hash_digest]
      ([std::array<uint8_t, 32>]) is a vector of 32 bytes.
    - a function that can hit [BITCOIN_ASSERT] returns an [outcome].
    - a function that works on a vector it owns or was handed by
      reference returns the final contents of that vector next to its
      result. *)

From Stdlib Require Import ZArith List Strings.Byte Strings.Ascii Lia.
From Stdlib Require Import Sorting.Sorted Sorting.Permutation.
From stdpp Require Import base decidable list vector.
From Equations Require Import Equations.
From Equations.Prop Require Logic.

Local Open Scope Z_scope.

(** ** Machine integers *)

Definition uint32_modulus : Z := 2 ^ 32.
Definition uint64_modulus : Z := 2 ^ 64.

(** [std::numeric_limits<uint32_t>::max()] *)
Definition uint32_max : Z := 4294967295.

(** Conversion to, and arithmetic in, [uint32_t] and [uint64_t]. *)
Definition to_uint32 (z : Z) : Z := z mod uint32_modulus.
Definition to_uint64 (z : Z) : Z := z mod uint64_modulus.

Definition is_uint32 (z : Z) : Prop := 0 <= z < uint32_modulus.
Definition is_uint64 (z : Z) : Prop := 0 <= z < uint64_modulus.

(** ** Bytes and digests *)

#[global] Instance byte_eq_decision : EqDecision byte := byte_eq_dec.

Definition data_chunk := list byte.

(** Modelled from the spec: [hash_digest] and [hash_digest_size] are
    declared in types.hpp, which is not part of the sources at hand; the
    specification fixes digests at 32 bytes. *)
Definition hash_digest_size : nat := 32.
Definition hash_digest := vec byte hash_digest_size.
Definition hash_list := list hash_digest.

(** Modelled from the spec: [null_hash] is declared in constants.hpp,
    which is not part of the sources at hand; the specification calls
    it the designated all-zero digest. *)
Definition null_hash : hash_digest := vreplicate hash_digest_size x00.

(** Modelled from the spec: [locktime_threshold] is declared in
    constants.hpp; the specification gives the height/time
    discriminator as 500,000,000. *)
Definition locktime_threshold : Z := 500000000.

(** ** Transaction model

    The records are declared in primitives.hpp, which is not part of the
    sources at hand.  The fields are those the functions read; their
    widths are those of the specification's data model. *)

(** Modelled from the spec: OutputPoint, a 32-byte transaction hash and
    a 32-bit index. *)
Record output_point := {
  hash : hash_digest;
  index : Z
}.

(** Modelled from the spec: TransactionInput; [sequence] is 32 bits
    wide, the script an opaque byte program. *)
Record transaction_input_type := {
  previous_output : output_point;
  input_script : data_chunk;
  sequence : Z
}.

(** Modelled from the spec: TransactionOutput; [value] is 64 bits
    wide. *)
Record transaction_output_type := {
  value : Z;
  output_script : data_chunk
}.

(** Modelled from the spec: Transaction; [version] and [locktime] are
    32 bits wide, inputs and outputs are ordered. *)
Record transaction_type := {
  version : Z;
  locktime : Z;
  inputs : list transaction_input_type;
  outputs : list transaction_output_type
}.

(** Every field holds a value of its C++ type. *)
Definition wf_transaction (tx : transaction_type) : Prop :=
  is_uint32 (version tx) /\ is_uint32 (locktime tx) /\
  Forall (fun i => is_uint32 (sequence i) /\
                   is_uint32 (index (previous_output i))) (inputs tx) /\
  Forall (fun o => is_uint64 (value o)) (outputs tx).

(** ** Outcomes of a call

    A call returns, or stops at a failed assertion, or reads a vector
    element that does not exist ([OutOfRange]), which the C++ code
    never checks. *)

Inductive outcome (A : Type) : Type :=
| Returned (a : A)
| AssertionFailed
| OutOfRange.

Arguments Returned {A} a.
Arguments AssertionFailed {A}.
Arguments OutOfRange {A}.

Definition bind {A B : Type} (m : outcome A) (k : A -> outcome B) : outcome B :=
  match m with
  | Returned a => k a
  | AssertionFailed => AssertionFailed
  | OutOfRange => OutOfRange
  end.

Declare Scope outcome_scope.
Delimit Scope outcome_scope with outcome.
Notation "x <- m ;; k" := (bind m (fun x => k))
  (at level 100, m at next level, right associativity) : outcome_scope.

(** Modelled from the spec: [BITCOIN_ASSERT] comes from
    utility/assert.hpp, which is not part of the sources at hand.  It is
    an internal assertion: when its condition is false the call does
    not return. *)
Definition BITCOIN_ASSERT (condition : bool) : outcome unit :=
  if condition then Returned tt else AssertionFailed.

Definition outcome_map {A B : Type} (f : A -> B) (m : outcome A) : outcome B :=
  bind m (fun a => Returned (f a)).

(** ** Coinbase detection *)

Definition previous_output_is_null (previous_output : output_point) : bool :=
  (index previous_output =? uint32_max) &&
  bool_decide (hash previous_output = null_hash).

(** [tx.inputs[0]] is read only when the size test before [&&] passed. *)
Definition is_coinbase (tx : transaction_type) : bool :=
  (length (inputs tx) =? 1)%nat &&
  match inputs tx with
  | input0 :: _ => previous_output_is_null (previous_output input0)
  | [] => false
  end.

(** ** Total output value *)

Definition total_output_value (tx : transaction_type) : Z :=
  fold_left (fun total output => to_uint64 (total + value output))
            (outputs tx) 0.

(** The mathematical sum of the output values, for comparison. *)
Definition output_sum (tx : transaction_type) : Z :=
  fold_right (fun output acc => value output + acc) 0 (outputs tx).

(** The specification's reading of [totalOutputValue]: a checked sum. *)
Inductive checked (A : Type) : Type :=
| Value (a : A)
| ArithmeticOverflow.

Arguments Value {A} a.
Arguments ArithmeticOverflow {A}.

Definition totalOutputValue_spec (tx : transaction_type) : checked Z :=
  if output_sum tx <? uint64_modulus
  then Value (output_sum tx)
  else ArithmeticOverflow.

(** ** Finality *)

Definition is_final_input (tx_input : transaction_input_type) : bool :=
  sequence tx_input =? uint32_max.

(** [block_height] is a [size_t]; storing it in the [uint32_t]
    [max_locktime] converts it. *)
Definition is_final (tx : transaction_type)
    (block_height block_time : Z) : bool :=
  if locktime tx =? 0 then true
  else
    let max_locktime := block_time in
    let max_locktime :=
      if locktime tx <? locktime_threshold
      then to_uint32 block_height
      else max_locktime in
    if locktime tx <? max_locktime then true
    else forallb is_final_input (inputs tx).

(** The reference value the specification compares [locktime] with. *)
Definition applicable_reference (tx : transaction_type)
    (referenceHeight referenceTime : Z) : Z :=
  if locktime tx <? locktime_threshold then referenceHeight else referenceTime.

(** ** External collaborators

    The hash primitive (utility/sha256.hpp) and the wire serializer
    (satoshi_serialize.hpp) are not part of the sources at hand; the
    functions below take them as parameters. *)

Class Sha256 := generate_sha256_hash : data_chunk -> hash_digest.

Class SatoshiSerialize := {
  (** the bytes [satoshi_save] writes for a transaction *)
  satoshi_save : transaction_type -> data_chunk;
  satoshi_raw_size : transaction_type -> nat;
  (** the bytes of a [uint32_t] *)
  uncast_type : Z -> data_chunk
}.

(** ** Writing through an iterator

    The serializer of utility/serializer.hpp is not part of the sources
    at hand. *)

(** Storing [data] in [buffer] from [position] on. *)
Definition write_at (position : nat) (data buffer : data_chunk) : data_chunk :=
  take position buffer ++ data ++ drop (position + length data) buffer.

(** Modelled from the spec: a serializer holds an iterator into the
    buffer it was made on. *)
Record serializer := {
  buffer : data_chunk;
  iterator : nat
}.

(** Modelled from the spec: [make_serializer] starts at the iterator it
    is given, here the begin of the buffer. *)
Definition make_serializer (begin : data_chunk) : serializer :=
  {| buffer := begin; iterator := 0 |}.

(** Modelled from the spec: [write_hash] stores the raw bytes of a
    digest, full width and in order, at the iterator and advances it. *)
Definition write_hash (s : serializer) (h : hash_digest) : serializer :=
  {| buffer := write_at (iterator s) (vec_to_list h) (buffer s);
     iterator := iterator s + hash_digest_size |}.

(** ** Transaction hashing *)

Section Hashing.
Context `{Sha256} `{SatoshiSerialize}.

Definition extend_data (chunk other : data_chunk) : data_chunk :=
  chunk ++ other.

Definition hash_transaction_impl (tx : transaction_type)
    (hash_type_code : option Z) : hash_digest :=
  let serialized_tx := replicate (satoshi_raw_size tx) x00 in
  let serialized_tx := write_at 0 (satoshi_save tx) serialized_tx in
  let serialized_tx :=
    match hash_type_code with
    | Some code => extend_data serialized_tx (uncast_type code)
    | None => serialized_tx
    end in
  generate_sha256_hash serialized_tx.

Definition hash_transaction (tx : transaction_type) : hash_digest :=
  hash_transaction_impl tx None.

Definition hash_transaction_with_code (tx : transaction_type)
    (hash_type_code : Z) : hash_digest :=
  hash_transaction_impl tx (Some hash_type_code).
End Hashing.

(** ** Merkle tree *)

Section Merkle.
Context `{Sha256}.

(** The body of the [for] loop: one parent digest out of two children. *)
Definition hash_pair (lhs rhs : hash_digest) : outcome hash_digest :=
  let concat_data := replicate (hash_digest_size * 2) x00 in
  let concat := make_serializer concat_data in
  let concat := write_hash concat lhs in
  let concat := write_hash concat rhs in
  (_ <- BITCOIN_ASSERT (iterator concat =? hash_digest_size * 2)%nat ;;
   Returned (generate_sha256_hash (buffer concat)))%outcome.

(** The [for] loop: [it] is what lies between the iterator and
    [merkle.end()].  With one element left, [*(it + 1)] reads past the
    end. *)
Fixpoint pair_up (it : hash_list) (new_merkle : hash_list)
    : outcome hash_list :=
  match it with
  | [] => Returned new_merkle
  | lhs :: rhs :: it' =>
      (new_root <- hash_pair lhs rhs ;;
       pair_up it' (new_merkle ++ [new_root]))%outcome
  | [_] => OutOfRange
  end.

(** [if (merkle.size() % 2 != 0) merkle.push_back(merkle.back());] *)
Definition duplicate_last_if_odd (merkle : hash_list) : hash_list :=
  if Nat.odd (length merkle)
  then match last merkle with
       | Some back => merkle ++ [back]
       | None => merkle
       end
  else merkle.

Lemma pair_up_length it new_merkle result :
  pair_up it new_merkle = Returned result ->
  (length result = length new_merkle + Nat.div2 (length it))%nat.
Proof.
  revert new_merkle result.
  induction it as [it IH] using (well_founded_induction
    (well_founded_ltof _ (@length hash_digest))).
  intros new_merkle result. destruct it as [|l [|r it']]; cbn [pair_up].
  - intros [= <-]. simpl. lia.
  - discriminate.
  - destruct (hash_pair l r) as [root| |]; cbn [bind]; try discriminate.
    intros Hres. apply IH in Hres; [|unfold ltof; simpl; lia].
    rewrite length_app in Hres. simpl in Hres |- *. lia.
Qed.

Lemma duplicate_last_if_odd_length merkle :
  (length merkle <= length (duplicate_last_if_odd merkle)
                 <= S (length merkle))%nat.
Proof.
  unfold duplicate_last_if_odd.
  destruct (Nat.odd _); [destruct (last merkle)|];
    rewrite ?length_app; simpl; lia.
Qed.

(** The [while] loop; it ends because every round halves the level. *)
#[local] Unset Equations With Funext.

Equations? merkle_rounds (merkle : hash_list) : outcome hash_list
    by wf (length merkle) lt :=
  merkle_rounds merkle with Logic.inspect (1 <? length merkle)%nat := {
    | exist _ false Hdone => Returned merkle
    | exist _ true Hsize
        with Logic.inspect (pair_up (duplicate_last_if_odd merkle) []) := {
        | exist _ (Returned new_merkle) Hlevel => merkle_rounds new_merkle
        | exist _ AssertionFailed Hlevel => AssertionFailed
        | exist _ OutOfRange Hlevel => OutOfRange
      }
  }.
Proof.
  apply pair_up_length in Hlevel. simpl in Hlevel.
  apply Nat.ltb_lt in Hsize.
  pose proof (duplicate_last_if_odd_length merkle) as Hdup.
  rewrite Hlevel.
  pose proof (Nat.div2_odd (length (duplicate_last_if_odd merkle))) as Hhalf.
  destruct (Nat.odd (length (duplicate_last_if_odd merkle)));
    simpl in Hhalf; lia.
Qed.

(** [merkle] is a reference: the second component is what the
    caller's vector holds when the call returns. *)
Definition build_merkle_tree (merkle : hash_list)
    : outcome (hash_digest * hash_list) :=
  match merkle with
  | [] => Returned (null_hash, merkle)
  | [only] => Returned (only, merkle)
  | _ =>
      (merkle' <- merkle_rounds merkle ;;
       match merkle' with
       | root :: _ => Returned (root, merkle')
       | [] => OutOfRange
       end)%outcome
  end.
End Merkle.

Section MerkleRoot.
Context `{Sha256} `{SatoshiSerialize}.

(** [tx_hashes] is a local vector; [transactions] is a reference to
    const and is only read. *)
Definition generate_merkle_root (transactions : list transaction_type)
    : outcome hash_digest :=
  let tx_hashes :=
    fold_left (fun tx_hashes tx => tx_hashes ++ [hash_transaction tx])
              transactions [] in
  outcome_map fst (build_merkle_tree tx_hashes).
End MerkleRoot.

(** ** Output selection: data *)

(** Modelled from the spec: UnspentOutputInfo, declared in
    transaction.hpp, which is not part of the sources at hand; [value]
    is 64 bits wide. *)
Module output_info.
Record output_info_type := {
  point : output_point;
  value : Z
}.
End output_info.
Abbreviation output_info_type := output_info.output_info_type.
Definition output_info_list := list output_info_type.

(** Modelled from the spec: SelectionResult, declared in
    transaction.hpp; [change] is 64 bits wide. *)
Record select_outputs_result := {
  points : list output_point;
  change : Z
}.

(** Modelled from the spec: [select_outputs_result()], the failure
    result; it has no points, and its [change] is taken to be zeroed. *)
Definition select_outputs_result_default : select_outputs_result :=
  {| points := []; change := 0 |}.

(** The enumeration [select_outputs_algorithm] is declared in
    transaction.hpp, which is not part of the sources at hand; the
    function only needs its enumerator [greedy] and [==]. *)
Class SelectOutputsAlgorithm := {
  select_outputs_algorithm : Type;
  greedy : select_outputs_algorithm;
  select_outputs_algorithm_eq_dec :: EqDecision select_outputs_algorithm
}.

(** An enumeration over [int] whose first enumerator is [greedy]. *)
Definition int_enumeration : SelectOutputsAlgorithm :=
  {| select_outputs_algorithm := Z; greedy := 0 |}.

(** ** The standard algorithms

    [std::partition] and [std::sort] are not stable: the C++ standard
    fixes what holds of the range afterwards, not which admissible
    order results.  [select_outputs] is modelled over every
    implementation that meets the standard's contract. *)

Record strict_weak_order {A : Type} (comp : A -> A -> bool) : Prop := {
  swo_irreflexive : forall a, comp a a = false;
  swo_transitive : forall a b c,
    comp a b = true -> comp b c = true -> comp a c = true;
  swo_equivalence : forall a b c,
    comp a b = false -> comp b a = false ->
    comp b c = false -> comp c b = false ->
    comp a c = false /\ comp c a = false
}.

Class StdAlgorithm := {
  (** the range before, and the range from, the returned iterator *)
  std_partition : forall {A : Type}, (A -> bool) -> list A -> list A * list A;
  std_partition_permutation : forall (A : Type) (pred : A -> bool) l,
    Permutation (fst (std_partition pred l) ++ snd (std_partition pred l)) l;
  std_partition_first : forall (A : Type) (pred : A -> bool) l,
    Forall (fun x => pred x = true) (fst (std_partition pred l));
  std_partition_second : forall (A : Type) (pred : A -> bool) l,
    Forall (fun x => pred x = false) (snd (std_partition pred l));
  std_sort : forall {A : Type}, (A -> A -> bool) -> list A -> list A;
  std_sort_permutation : forall (A : Type) (comp : A -> A -> bool) l,
    Permutation (std_sort comp l) l;
  std_sort_sorted : forall (A : Type) (comp : A -> A -> bool) l,
    strict_weak_order comp ->
    StronglySorted (fun a b => comp b a = false) (std_sort comp l)
}.

(** [std::min_element]: the first of the smallest elements, or the end
    of the range ([None]) when the range is empty. *)
Fixpoint min_element_from {A : Type} (comp : A -> A -> bool)
    (smallest : A) (range : list A) : A :=
  match range with
  | [] => smallest
  | x :: range' =>
      if comp x smallest
      then min_element_from comp x range'
      else min_element_from comp smallest range'
  end.

Definition std_min_element {A : Type} (comp : A -> A -> bool)
    (range : list A) : option A :=
  match range with
  | [] => None
  | x :: range' => Some (min_element_from comp x range')
  end.

(** One implementation of the contract: a stable partition and an
    insertion sort. *)
Definition stable_partition {A : Type} (pred : A -> bool) (l : list A)
    : list A * list A :=
  (List.filter pred l, List.filter (fun x => negb (pred x)) l).

Fixpoint insert_sorted {A : Type} (comp : A -> A -> bool) (x : A)
    (l : list A) : list A :=
  match l with
  | [] => [x]
  | y :: l' => if comp y x then y :: insert_sorted comp x l' else x :: y :: l'
  end.

Definition insertion_sort {A : Type} (comp : A -> A -> bool) (l : list A)
    : list A :=
  fold_right (insert_sorted comp) [] l.

(** ** Output selection: the function *)

Section SelectOutputs.
Context `{StdAlgorithm} `{SelectOutputsAlgorithm}.

(** The final [for] loop over the sorted lesser outputs; [it] is what
    lies between the iterator and [lesser_end]. *)
Fixpoint accumulate (it : output_info_list) (min_value : Z)
    (result_points : list output_point) (accum : Z)
    : select_outputs_result :=
  match it with
  | [] => select_outputs_result_default
  | info :: it' =>
      let result_points := result_points ++ [output_info.point info] in
      let accum := to_uint64 (accum + output_info.value info) in
      if accum >=? min_value
      then {| points := result_points;
              change := to_uint64 (accum - min_value) |}
      else accumulate it' min_value result_points accum
  end.

(** [unspent] is the function's own copy of the argument; the second
    component is what that copy holds when the function returns. *)
Definition select_outputs_body (unspent : output_info_list)
    (min_value : Z) (alg : select_outputs_algorithm)
    : outcome (select_outputs_result * output_info_list) :=
  (_ <- BITCOIN_ASSERT (bool_decide (alg = greedy)) ;;
   match unspent with
   | [] => Returned (select_outputs_result_default, unspent)
   | _ :: _ =>
       let parts :=
         std_partition
           (fun out_info => output_info.value out_info <? min_value)
           unspent in
       let lesser := fst parts in
       let greater := snd parts in
       match std_min_element
               (fun info_a info_b =>
                  output_info.value info_a <? output_info.value info_b)
               greater with
       | Some min_greater =>
           Returned
             ({| points := [output_info.point min_greater];
                 change := to_uint64
                   (output_info.value min_greater - min_value) |},
              lesser ++ greater)
       | None =>
           let lesser :=
             std_sort
               (fun info_a info_b =>
                  output_info.value info_a >? output_info.value info_b)
               lesser in
           Returned (accumulate lesser min_value [] 0, lesser ++ greater)
       end
   end)%outcome.

Definition select_outputs (unspent : output_info_list)
    (min_value : Z) (alg : select_outputs_algorithm)
    : outcome select_outputs_result :=
  outcome_map fst (select_outputs_body unspent min_value alg).
End SelectOutputs.

(** ** Calls and the caller's vector

    A function body is a map from the vector it works on to a result
    and the final contents of that vector.  Called with a reference
    parameter it works on the caller's vector; called with a value
    parameter it works on a copy, which is dropped on return. *)

Definition call_by_reference {V R : Type} (body : V -> outcome (R * V))
    (caller_vector : V) : outcome (R * V) :=
  body caller_vector.

Definition call_by_value {V R : Type} (body : V -> outcome (R * V))
    (caller_vector : V) : outcome (R * V) :=
  let copy := caller_vector in
  outcome_map (fun result_and_copy => (fst result_and_copy, caller_vector))
              (body copy).

(** The mathematical sum of the candidates' values, for comparison. *)
Fixpoint sum_values (l : output_info_list) : Z :=
  match l with
  | [] => 0
  | info :: l' => output_info.value info + sum_values l'
  end.

Definition wf_output_info_list (l : output_info_list) : Prop :=
  Forall (fun info => is_uint64 (output_info.value info)) l.

(** The root a caller of [build_merkle_tree] receives. *)
Definition merkle_root `{Sha256} (merkle : hash_list) : outcome hash_digest :=
  outcome_map fst (build_merkle_tree merkle).

(** ** The outcomes of a selection, in the specification's words *)

Definition descending (l : output_info_list) : Prop :=
  StronglySorted (fun a b => output_info.value b <= output_info.value a) l.

(** One point: a candidate of smallest value among those that cover
    [min_value] on their own. *)
Definition smallest_sufficient (unspent : output_info_list) (min_value : Z)
    (result : select_outputs_result) : Prop :=
  exists c,
    In c unspent /\ min_value <= output_info.value c /\
    (forall c', In c' unspent -> min_value <= output_info.value c' ->
                output_info.value c <= output_info.value c') /\
    points result = [output_info.point c] /\
    change result = output_info.value c - min_value.

(** The candidates below [min_value], largest first, up to and
    including the first one at which the running sum reaches
    [min_value]. *)
Definition accumulated_lesser (unspent : output_info_list) (min_value : Z)
    (result : select_outputs_result) : Prop :=
  exists sorted k,
    Permutation sorted
      (List.filter (fun c => output_info.value c <? min_value) unspent) /\
    descending sorted /\
    (k < length sorted)%nat /\
    (forall j, (j <= k)%nat -> sum_values (take j sorted) < min_value) /\
    min_value <= sum_values (take (S k) sorted) /\
    points result = map output_info.point (take (S k) sorted) /\
    change result = sum_values (take (S k) sorted) - min_value.

(** The selection as the specification words it, with nothing said
    about totals: one point when some candidate is large enough,
    otherwise the accumulated lesser candidates. *)
Definition selection_as_specified (unspent : output_info_list)
    (min_value : Z) (result : select_outputs_result) : Prop :=
  (Exists (fun c => min_value <= output_info.value c) unspent ->
   smallest_sufficient unspent min_value result) /\
  (~ Exists (fun c => min_value <= output_info.value c) unspent ->
   accumulated_lesser unspent min_value result).

(** ** An implementation of the standard algorithms' contract *)

Lemma negative_transitivity {A : Type} (comp : A -> A -> bool) :
  strict_weak_order comp ->
  forall a b c, comp b a = false -> comp c b = false -> comp c a = false.
Proof.
  intros [Hirr Htrans Hequiv] a b c Hba Hcb.
  destruct (comp c a) eqn:Hca; [exfalso | reflexivity].
  destruct (comp a b) eqn:Hab.
  - rewrite (Htrans c a b Hca Hab) in Hcb. discriminate.
  - destruct (comp b c) eqn:Hbc.
    + rewrite (Htrans b c a Hbc Hca) in Hba. discriminate.
    + destruct (Hequiv a b c Hab Hba Hbc Hcb) as [_ Hca'].
      rewrite Hca in Hca'. discriminate.
Qed.

Lemma stable_partition_permutation {A : Type} (pred : A -> bool)
    (l : list A) :
  Permutation
    (fst (stable_partition pred l) ++ snd (stable_partition pred l)) l.
Proof.
  unfold stable_partition. cbn [fst snd].
  induction l as [|x l IH]; cbn [List.filter]; [constructor|].
  destruct (pred x); cbn [negb app].
  - now constructor.
  - rewrite <- Permutation_middle. now constructor.
Qed.

Lemma filter_all {A : Type} (pred : A -> bool) (l : list A) :
  Forall (fun x => pred x = true) (List.filter pred l).
Proof.
  induction l as [|x l IH]; cbn [List.filter]; [constructor|].
  destruct (pred x) eqn:Hx; [now constructor | exact IH].
Qed.

Lemma filter_negb_none {A : Type} (pred : A -> bool) (l : list A) :
  Forall (fun x => pred x = false) (List.filter (fun x => negb (pred x)) l).
Proof.
  induction l as [|x l IH]; cbn [List.filter]; [constructor|].
  destruct (pred x) eqn:Hx; cbn [negb]; [exact IH | now constructor].
Qed.

Lemma insert_sorted_permutation {A : Type} (comp : A -> A -> bool) x l :
  Permutation (insert_sorted comp x l) (x :: l).
Proof.
  induction l as [|y l IH]; cbn [insert_sorted]; [reflexivity|].
  destruct (comp y x); [|reflexivity].
  rewrite IH. apply perm_swap.
Qed.

Lemma insertion_sort_permutation {A : Type} (comp : A -> A -> bool) l :
  Permutation (insertion_sort comp l) l.
Proof.
  induction l as [|x l IH]; cbn [insertion_sort fold_right]; [constructor|].
  rewrite insert_sorted_permutation. now constructor.
Qed.

Lemma insert_sorted_sorted {A : Type} (comp : A -> A -> bool) x l :
  strict_weak_order comp ->
  StronglySorted (fun a b => comp b a = false) l ->
  StronglySorted (fun a b => comp b a = false) (insert_sorted comp x l).
Proof.
  intros Hswo Hsorted.
  induction Hsorted as [|y l Hsorted IH Hy]; cbn [insert_sorted].
  - repeat constructor.
  - destruct (comp y x) eqn:Hyx.
    + constructor; [exact IH|].
      assert (Hxy : comp x y = false).
      { destruct (comp x y) eqn:Hxy; [|reflexivity].
        rewrite <- (swo_irreflexive comp Hswo y). symmetry.
        now apply (swo_transitive comp Hswo y x y). }
      eapply Permutation_Forall;
        [symmetry; apply insert_sorted_permutation|].
      now constructor.
    + constructor; [now constructor|].
      constructor; [exact Hyx|].
      eapply Forall_impl; [exact Hy|]. cbn beta.
      intros z Hzy. now apply (negative_transitivity comp Hswo x y z).
Qed.

Lemma insertion_sort_sorted {A : Type} (comp : A -> A -> bool) l :
  strict_weak_order comp ->
  StronglySorted (fun a b => comp b a = false) (insertion_sort comp l).
Proof.
  intros Hswo.
  induction l as [|x l IH]; cbn [insertion_sort fold_right]; [constructor|].
  now apply insert_sorted_sorted.
Qed.

(** The stable partition and the insertion sort meet the contract. *)
Definition reference_algorithm : StdAlgorithm :=
  {| std_partition := @stable_partition;
     std_partition_permutation := @stable_partition_permutation;
     std_partition_first := fun A pred l => filter_all pred l;
     std_partition_second := fun A pred l => filter_negb_none pred l;
     std_sort := @insertion_sort;
     std_sort_permutation := @insertion_sort_permutation;
     std_sort_sorted := @insertion_sort_sorted |}.

(** ** Inputs to run the functions on *)

(** A transaction whose two outputs add up to 2^64. *)
Definition overflowing_transaction : transaction_type :=
  {| version := 1; locktime := 0; inputs := [];
     outputs := [ {| value := 18446744073709551615; output_script := [] |};
                  {| value := 1; output_script := [] |} ] |}.

(** A transaction locked until height 1 whose only input is not final. *)
Definition height_locked_transaction : transaction_type :=
  {| version := 1; locktime := 1;
     inputs := [ {| previous_output := {| hash := null_hash; index := 0 |};
                    input_script := []; sequence := 0 |} ];
     outputs := [] |}.

(** A stand-in for the hash primitive, to run the functions on concrete
    digests: the first 32 bytes of the data, zero-padded. *)
Definition prefix_hash : Sha256 :=
  fun data => fun_to_vec (fun i => List.nth (fin_to_nat i) data x00).

(** A digest other than [null_hash]. *)
Definition ones_hash : hash_digest := vreplicate hash_digest_size x01.

(** Candidates to run the selection on. *)
Definition candidate (n v : Z) : output_info_type :=
  {| output_info.point := {| hash := null_hash; index := n |};
     output_info.value := v |}.

Definition small_candidates : output_info_list :=
  [candidate 0 30; candidate 1 40].

Definition three_candidates : output_info_list :=
  [candidate 0 30; candidate 1 40; candidate 2 90].

(** Three candidates of 2^63-1 each: any two of them stay below 2^64,
    the three together do not. *)
Definition half_range_candidates : output_info_list :=
  [candidate 0 9223372036854775807; candidate 1 9223372036854775807;
   candidate 2 9223372036854775807].

(** Two candidates of 2^64-2 each: together far more than 2^64-1. *)
Definition large_candidates : output_info_list :=
  [candidate 0 18446744073709551614; candidate 1 18446744073709551614].

(** ** Comparing output points *)

(** [operator==] on [output_point]. *)
Definition output_point_eq (output_a output_b : output_point) : bool :=
  bool_decide (hash output_a = hash output_b) &&
  (index output_a =? index output_b).

(** [operator!=] on [output_point]. *)
Definition output_point_ne (output_a output_b : output_point) : bool :=
  negb (output_point_eq output_a output_b).

(** The null output point: the all-zero hash and the largest index. *)
Definition null_output_point : output_point :=
  {| hash := null_hash; index := uint32_max |}.

(** ** One level of the merkle tree, as a function

    The parent digests of a level of even size, left to right, and the
    level the [while] loop moves on to. *)

Fixpoint parents `{Sha256} (level : hash_list) : hash_list :=
  match level with
  | lhs :: rhs :: level' =>
      generate_sha256_hash (vec_to_list lhs ++ vec_to_list rhs)
      :: parents level'
  | _ => []
  end.

Definition next_level `{Sha256} (level : hash_list) : hash_list :=
  parents (duplicate_last_if_odd level).

(** A transaction with other outputs. *)
Definition with_outputs (tx : transaction_type)
    (outs : list transaction_output_type) : transaction_type :=
  {| version := version tx; locktime := locktime tx;
     inputs := inputs tx; outputs := outs |}.

(** A serializer to run the hashing on: one byte per input and output,
    and four zero bytes for any code. *)
Definition counting_serializer : SatoshiSerialize :=
  {| satoshi_save := fun tx =>
       replicate (length (inputs tx)) x01
       ++ replicate (length (outputs tx)) x02;
     satoshi_raw_size := fun tx =>
       (length (inputs tx) + length (outputs tx))%nat;
     uncast_type := fun _ => [x00; x00; x00; x00] |}.

(** ** Text (src/format.cpp)

    A [std::string] is the list of its characters. *)

Definition std_string := list ascii.

(** Conversion of an [int] to [uint8_t]. *)
Definition to_uint8 (z : Z) : byte :=
  default x00 (Byte.of_N (Z.to_N (z mod 256))).

(** [boost::algorithm::trim] and the extraction of a hexadecimal number
    from a [std::stringstream] are library code; [decode_hex] is
    modelled over what they do.  [hex_extract pair] is what
    [converter << std::hex << pair; converter >> val] leaves in [val],
    which held -1 before. *)
Class StringLibrary := {
  trim : std_string -> std_string;
  hex_extract : std_string -> Z
}.

(** The loop of [decode_hex]: [rest] is the text from position [i]
    on. *)
Fixpoint decode_pairs `{StringLibrary} (rest : std_string) (i : nat)
    (result : data_chunk) : outcome data_chunk :=
  match rest with
  | c1 :: c2 :: rest' =>
      (_ <- BITCOIN_ASSERT (2 <=? length rest)%nat ;;
       let val := hex_extract [c1; c2] in
       if val =? -1 then Returned []
       else
         (_ <- BITCOIN_ASSERT (val <=? 255) ;;
          if (i / 2 <? length result)%nat
          then decode_pairs rest' (i + 2)
                 (<[(i / 2)%nat := to_uint8 val]> result)
          else OutOfRange))%outcome
  | _ => Returned result
  end.

Definition decode_hex `{StringLibrary} (hex_str : std_string)
    : outcome data_chunk :=
  let hex_str := trim hex_str in
  let result := replicate (length hex_str / 2) x00 in
  decode_pairs hex_str 0 result.

(** The text cut into pairs of characters; a last single character is
    left out. *)
Fixpoint hex_pairs (hex_str : std_string) : list std_string :=
  match hex_str with
  | c1 :: c2 :: hex_str' => [c1; c2] :: hex_pairs hex_str'
  | _ => []
  end.

(** A string library to run [decode_hex] on: nothing to trim, and two
    hexadecimal digits give their value, anything else leaves -1. *)
Definition hex_digit_value (c : ascii) : option Z :=
  let n := Z.of_nat (nat_of_ascii c) in
  if (48 <=? n) && (n <=? 57) then Some (n - 48)
  else if (97 <=? n) && (n <=? 102) then Some (n - 87)
  else if (65 <=? n) && (n <=? 70) then Some (n - 55)
  else None.

Definition plain_hex : StringLibrary :=
  {| trim := fun hex_str => hex_str;
     hex_extract := fun pair =>
       match pair with
       | [c1; c2] =>
           match hex_digit_value c1, hex_digit_value c2 with
           | Some high, Some low => 16 * high + low
           | _, _ => -1
           end
       | _ => -1
       end |}.

(** [boost::lexical_cast<std::string>] of an unsigned integer: its
    decimal digits, most significant first.  Twenty digits are enough
    for a [uint64_t]. *)
Definition digit (d : Z) : ascii := ascii_of_nat (48 + Z.to_nat d).

Fixpoint decimal (places : nat) (n : Z) : std_string :=
  match places with
  | O => []
  | S places' =>
      if n <? 10 then [digit n]
      else decimal places' (n / 10) ++ [digit (n mod 10)]
  end.

Definition lexical_cast (n : Z) : std_string := decimal 20 n.

(** [boost::is_any_of] and [boost::algorithm::trim_right_if]. *)
Definition is_any_of (set : std_string) (c : ascii) : bool :=
  existsb (Ascii.eqb c) set.

Fixpoint trim_right_if (pred : ascii -> bool) (input : std_string)
    : std_string :=
  match input with
  | [] => []
  | c :: input' =>
      match trim_right_if pred input' with
      | [] => if pred c then [] else [c]
      | trimmed => c :: trimmed
      end
  end.

(** [coin_price] is declared in constants.hpp, which is not part of the
    sources at hand; [satoshi_to_btc] is modelled over it. *)
Class Constants := coin_price : Z -> Z.

(** One coin is 10^8 of the smallest unit. *)
Definition satoshi_coin : Constants := fun value => value * 100000000.

(** [satoshi_to_btc].  The result is [None] where the count of padding
    characters, the [size_t] difference [8 - minor_str.size()], wraps
    around and the construction of [padded_minor] throws
    [std::length_error]. *)
Definition satoshi_to_btc `{Constants} (value : Z)
    : outcome (option std_string) :=
  let major := value / coin_price 1 in
  let result := lexical_cast major in
  (_ <- BITCOIN_ASSERT (value >=? major) ;;
   let minor := to_uint64 (value - to_uint64 (major * coin_price 1)) in
   _ <- BITCOIN_ASSERT (minor <? coin_price 1) ;;
   if minor >? 0 then
     let minor_str := lexical_cast minor in
     if (length minor_str <=? 8)%nat then
       let padded_minor := replicate (8 - length minor_str) "0"%char in
       let padded_minor := padded_minor ++ minor_str in
       let padded_minor := trim_right_if (is_any_of ["0"%char]) padded_minor in
       let result := result ++ ["."%char] ++ padded_minor in
       Returned (Some result)
     else Returned None
   else Returned (Some result))%outcome.

(** Reading an amount back: the digits before the point count coins,
    the digits after it count tenths, hundredths and so on of a coin. *)
Definition digit_value (c : ascii) : Z := Z.of_nat (nat_of_ascii c) - 48.

Definition digits_value (digits : std_string) : Z :=
  fold_left (fun acc c => acc * 10 + digit_value c) digits 0.

Fixpoint split_at_point (text : std_string) : std_string * std_string :=
  match text with
  | [] => ([], [])
  | c :: text' =>
      if Ascii.eqb c "."%char then ([], text')
      else (c :: fst (split_at_point text'), snd (split_at_point text'))
  end.

Definition btc_to_satoshi (text : std_string) : Z :=
  let whole := fst (split_at_point text) in
  let fraction := snd (split_at_point text) in
  digits_value whole * 10 ^ 8
  + digits_value fraction * 10 ^ (8 - Z.of_nat (length fraction)).

(** * Properties *)

(** ** Machine integers *)

Lemma to_uint64_small z : is_uint64 z -> to_uint64 z = z.
Proof. unfold is_uint64, to_uint64. intros Hz. now apply Z.mod_small. Qed.

Lemma to_uint32_small z : is_uint32 z -> to_uint32 z = z.
Proof. unfold is_uint32, to_uint32. intros Hz. now apply Z.mod_small. Qed.

Lemma to_uint32_le z : 0 <= z -> to_uint32 z <= z.
Proof.
  intros Hz. unfold to_uint32, uint32_modulus.
  apply Z.mod_le; lia.
Qed.

Lemma to_uint64_add_l a b : to_uint64 (to_uint64 a + b) = to_uint64 (a + b).
Proof. unfold to_uint64. now rewrite Zplus_mod_idemp_l. Qed.

(** ** Coinbase detection *)

Lemma null_hash_bytes : vec_to_list null_hash = replicate 32 x00.
Proof. reflexivity. Qed.

Lemma hash_is_null (h : hash_digest) :
  h = null_hash <-> vec_to_list h = replicate 32 x00.
Proof.
  split.
  - now intros ->.
  - intros Hbytes. apply vec_to_list_inj2. now rewrite Hbytes.
Qed.

Lemma previous_output_is_null_iff (p : output_point) :
  previous_output_is_null p = true <->
  index p = 2 ^ 32 - 1 /\ vec_to_list (hash p) = replicate 32 x00.
Proof.
  unfold previous_output_is_null.
  rewrite andb_true_iff, Z.eqb_eq, bool_decide_eq_true, hash_is_null.
  reflexivity.
Qed.

(** C9: [is_coinbase] holds exactly of a transaction with one input
    whose previous output is null, that is, has index 2^32-1 and an
    all-zero hash; with no input, with several inputs, or with one
    input that refers to a real output, it is false. *)
Theorem is_coinbase_iff (tx : transaction_type) :
  is_coinbase tx = true <->
  exists input,
    inputs tx = [input] /\
    index (previous_output input) = 2 ^ 32 - 1 /\
    vec_to_list (hash (previous_output input)) = replicate 32 x00.
Proof.
  unfold is_coinbase.
  destruct (inputs tx) as [|input0 [|input1 rest]]; cbn [length Nat.eqb andb].
  - split; [discriminate | intros (input & Hin & _); discriminate].
  - rewrite previous_output_is_null_iff. split.
    + intros Hnull. now exists input0.
    + intros (input & [= <-] & Hnull). exact Hnull.
  - split; [discriminate | intros (input & Hin & _); discriminate].
Qed.

(** ** Total output value *)

Lemma total_output_value_fold (outs : list transaction_output_type) start :
  fold_left (fun total output => to_uint64 (total + value output)) outs
            (to_uint64 start)
  = to_uint64
      (start + fold_right (fun output acc => value output + acc) 0 outs).
Proof.
  revert start. induction outs as [|o outs IH]; intros start; simpl.
  - now rewrite Z.add_0_r.
  - rewrite to_uint64_add_l, IH. f_equal. lia.
Qed.

Lemma output_sum_nonneg tx : wf_transaction tx -> 0 <= output_sum tx.
Proof.
  intros (_ & _ & _ & Houts). unfold output_sum.
  induction Houts as [|o outs Ho _ IH]; simpl; [lia|].
  unfold is_uint64 in Ho. lia.
Qed.

Lemma wf_overflowing_transaction : wf_transaction overflowing_transaction.
Proof.
  unfold wf_transaction, is_uint32, is_uint64, uint32_modulus, uint64_modulus.
  cbn [overflowing_transaction version locktime inputs outputs].
  repeat split; try lia.
  all: repeat constructor; cbn [value]; lia.
Defined.

(** C1 as the specification states it fails: on a well-formed
    transaction whose outputs add up to 2^64 the checked sum is an
    overflow, while the function returns the wrapped value 0. *)
Lemma total_output_value_wraps :
  wf_transaction overflowing_transaction /\
  totalOutputValue_spec overflowing_transaction = ArithmeticOverflow /\
  total_output_value overflowing_transaction = 0 /\
  Value (total_output_value overflowing_transaction)
    <> totalOutputValue_spec overflowing_transaction.
Proof.
  assert (Hspec : totalOutputValue_spec overflowing_transaction
                  = ArithmeticOverflow) by (vm_compute; reflexivity).
  split; [exact wf_overflowing_transaction|].
  split; [exact Hspec|].
  split; [vm_compute; reflexivity|].
  rewrite Hspec. discriminate.
Qed.

(** C1, amended: [total_output_value] returns the sum of the output
    values reduced modulo 2^64; this is the exact sum whenever the sum
    fits in 64 bits, and the wrapped sum otherwise. *)
Theorem total_output_value_modular (tx : transaction_type) :
  wf_transaction tx ->
  total_output_value tx = output_sum tx mod 2 ^ 64 /\
  (output_sum tx < 2 ^ 64 -> total_output_value tx = output_sum tx).
Proof.
  intros Hwf.
  assert (Hmod : total_output_value tx = to_uint64 (output_sum tx)).
  { unfold total_output_value, output_sum.
    change 0 with (to_uint64 0) at 1. now rewrite total_output_value_fold. }
  split; [exact Hmod|].
  intros Hfits. rewrite Hmod. apply to_uint64_small.
  split; [now apply output_sum_nonneg | exact Hfits].
Qed.

Lemma total_output_value_modular_witness :
  wf_transaction overflowing_transaction /\
  total_output_value overflowing_transaction
    = output_sum overflowing_transaction mod 2 ^ 64 /\
  (output_sum overflowing_transaction < 2 ^ 64 ->
   total_output_value overflowing_transaction
     = output_sum overflowing_transaction).
Proof.
  split; [exact wf_overflowing_transaction|].
  exact (total_output_value_modular overflowing_transaction
           wf_overflowing_transaction).
Defined.

(** ** Finality *)

Lemma is_final_input_iff (tx_input : transaction_input_type) :
  is_final_input tx_input = true <-> sequence tx_input = 2 ^ 32 - 1.
Proof. unfold is_final_input. rewrite Z.eqb_eq. reflexivity. Qed.

Lemma forallb_is_final_input (ins : list transaction_input_type) :
  forallb is_final_input ins = true <->
  Forall (fun tx_input => sequence tx_input = 2 ^ 32 - 1) ins.
Proof.
  induction ins as [|tx_input ins IH]; cbn [forallb].
  - split; [constructor | reflexivity].
  - rewrite andb_true_iff, is_final_input_iff, IH. split.
    + intros [Hhead Htail]. now constructor.
    + intros Hall. inversion Hall; subst. now split.
Qed.

Lemma is_final_unlocked (tx : transaction_type) (block_height block_time : Z) :
  locktime tx = 0 -> is_final tx block_height block_time = true.
Proof. intros Hzero. unfold is_final. now rewrite Hzero. Qed.

(** With an unelapsed lock the function is down to its loop over the
    inputs. *)
Lemma is_final_unelapsed (tx : transaction_type) (block_height block_time : Z) :
  0 <= block_height ->
  locktime tx <> 0 ->
  ~ locktime tx < applicable_reference tx block_height block_time ->
  is_final tx block_height block_time = forallb is_final_input (inputs tx).
Proof.
  intros Hheight Hnonzero Hunelapsed.
  unfold is_final, applicable_reference in *.
  destruct (Z.eqb_spec (locktime tx) 0) as [|_]; [contradiction|].
  destruct (locktime tx <? locktime_threshold).
  - pose proof (to_uint32_le block_height Hheight) as Hle.
    destruct (Z.ltb_spec (locktime tx) (to_uint32 block_height)); [lia|].
    reflexivity.
  - destruct (Z.ltb_spec (locktime tx) block_time); [lia|]. reflexivity.
Qed.

(** A height lock that has elapsed makes the transaction final, as long
    as the height fits in 32 bits. *)
Lemma is_final_elapsed_height (tx : transaction_type)
    (block_height block_time : Z) :
  is_uint32 block_height ->
  locktime tx < locktime_threshold ->
  locktime tx < block_height ->
  is_final tx block_height block_time = true.
Proof.
  intros Hheight Hbelow Helapsed. unfold is_final.
  destruct (locktime tx =? 0); [reflexivity|].
  apply Z.ltb_lt in Hbelow. rewrite Hbelow.
  rewrite (to_uint32_small _ Hheight).
  apply Z.ltb_lt in Helapsed. now rewrite Helapsed.
Qed.

(** C2 at block height 2^32: the lock of [height_locked_transaction]
    elapsed long ago, yet the height is cut to its low 32 bits, 0, before
    the comparison, and the transaction is reported as not final. *)
Theorem is_final_cuts_block_height :
  locktime height_locked_transaction <> 0 /\
  locktime height_locked_transaction < 500000000 /\
  is_uint64 4294967296 /\
  locktime height_locked_transaction < 4294967296 /\
  is_final height_locked_transaction 4294967296 0 = false.
Proof.
  unfold is_uint64, uint64_modulus. cbn [height_locked_transaction locktime].
  repeat split; try lia.
Qed.

(** C3: when the lock is set and has not elapsed, the transaction is
    final exactly when every input has sequence 2^32-1; so it is not
    final as soon as one input has a smaller sequence. *)
Theorem is_final_unelapsed_iff (tx : transaction_type)
    (referenceHeight referenceTime : Z) :
  is_uint64 referenceHeight ->
  is_uint32 referenceTime ->
  locktime tx <> 0 ->
  ~ locktime tx < applicable_reference tx referenceHeight referenceTime ->
  (is_final tx referenceHeight referenceTime = true <->
   Forall (fun tx_input => sequence tx_input = 2 ^ 32 - 1) (inputs tx)) /\
  (Exists (fun tx_input => sequence tx_input < 2 ^ 32 - 1) (inputs tx) ->
   is_final tx referenceHeight referenceTime = false).
Proof.
  intros [Hheight _] _ Hnonzero Hunelapsed.
  rewrite (is_final_unelapsed tx _ _ Hheight Hnonzero Hunelapsed).
  split; [apply forallb_is_final_input|].
  intros Hsmaller. apply not_true_is_false.
  rewrite forallb_is_final_input. intros Hall.
  induction Hsmaller as [tx_input ins Hlt | tx_input ins _ IH];
    inversion Hall; subst; [lia | now apply IH].
Qed.

Lemma is_final_unelapsed_iff_witness :
  (is_final height_locked_transaction 1 0 = true <->
   Forall (fun tx_input => sequence tx_input = 2 ^ 32 - 1)
          (inputs height_locked_transaction)) /\
  (Exists (fun tx_input => sequence tx_input < 2 ^ 32 - 1)
          (inputs height_locked_transaction) ->
   is_final height_locked_transaction 1 0 = false).
Proof.
  apply (is_final_unelapsed_iff height_locked_transaction 1 0).
  - unfold is_uint64, uint64_modulus. lia.
  - unfold is_uint32, uint32_modulus. lia.
  - cbn [height_locked_transaction locktime]. lia.
  - unfold applicable_reference.
    cbn [height_locked_transaction locktime]. simpl. lia.
Defined.

(** ** Merkle tree *)

Section MerkleProperties.
Context `{Sha256}.

Lemma hash_digest_length (h : hash_digest) :
  length (vec_to_list h) = hash_digest_size.
Proof. apply length_vec_to_list. Qed.

(** The two [write_hash] calls fill the 64-byte buffer with the two
    digests, one after the other, and leave the iterator at its end:
    the assertion in the loop body holds. *)
Lemma hash_pair_returns (lhs rhs : hash_digest) :
  hash_pair lhs rhs
  = Returned (generate_sha256_hash (vec_to_list lhs ++ vec_to_list rhs)).
Proof.
  unfold hash_pair, write_hash, make_serializer, write_at, BITCOIN_ASSERT.
  cbn [buffer iterator bind].
  rewrite !hash_digest_length.
  change (0 + hash_digest_size + hash_digest_size =? hash_digest_size * 2)%nat
    with true. cbn [bind].
  do 2 f_equal.
  rewrite take_0, app_nil_l.
  rewrite take_app_length' by now rewrite hash_digest_length.
  rewrite drop_ge; [now rewrite app_nil_r|].
  rewrite !length_app, length_drop, length_replicate, hash_digest_length.
  unfold hash_digest_size. lia.
Qed.

Lemma merkle_rounds_step (merkle : hash_list) :
  merkle_rounds merkle
  = if (1 <? length merkle)%nat
    then (new_merkle <- pair_up (duplicate_last_if_odd merkle) [] ;;
          merkle_rounds new_merkle)%outcome
    else Returned merkle.
Proof.
  funelim (merkle_rounds merkle); try rewrite <- Heqcall.
  - now rewrite Hdone.
  - rewrite Hsize, Hlevel. reflexivity.
  - now rewrite Hsize, Hlevel.
  - now rewrite Hsize, Hlevel.
Qed.

(** On a level of even size the [for] loop never reads past the end. *)
Lemma pair_up_even (it new_merkle : hash_list) :
  Nat.even (length it) = true ->
  exists level,
    pair_up it new_merkle = Returned (new_merkle ++ level) /\
    length level = Nat.div2 (length it).
Proof.
  revert new_merkle.
  induction it as [it IH] using (well_founded_induction
    (well_founded_ltof _ (@length hash_digest))).
  intros new_merkle Heven. destruct it as [|lhs [|rhs it']].
  - exists []. now rewrite app_nil_r.
  - discriminate.
  - cbn [pair_up]. rewrite hash_pair_returns. cbn [bind].
    destruct (IH it') with (new_merkle := new_merkle ++
      [generate_sha256_hash (vec_to_list lhs ++ vec_to_list rhs)])
      as (level & Hlevel & Hlen).
    + unfold ltof. simpl. lia.
    + exact Heven.
    + eexists (_ :: level). rewrite Hlevel, <- app_assoc.
      split; [reflexivity|]. simpl. now rewrite Hlen.
Qed.

Lemma duplicate_last_if_odd_even (merkle : hash_list) :
  Nat.even (length (duplicate_last_if_odd merkle)) = true.
Proof.
  unfold duplicate_last_if_odd.
  destruct (Nat.odd (length merkle)) eqn:Hodd.
  - destruct (last merkle) as [back|] eqn:Hlast.
    + rewrite length_app, Nat.add_1_r, Nat.even_succ. exact Hodd.
    + apply last_None in Hlast. subst. discriminate.
  - rewrite <- Nat.negb_odd, Hodd. reflexivity.
Qed.

(** The [while] loop always ends on a level of exactly one digest. *)
Lemma merkle_rounds_returns (merkle : hash_list) :
  merkle <> [] ->
  exists root, merkle_rounds merkle = Returned [root].
Proof.
  induction merkle as [merkle IH] using (well_founded_induction
    (well_founded_ltof _ (@length hash_digest))).
  intros Hnonempty. rewrite merkle_rounds_step.
  destruct (Nat.ltb_spec 1 (length merkle)) as [Hsize|Hsize].
  - destruct (pair_up_even (duplicate_last_if_odd merkle) []
                (duplicate_last_if_odd_even merkle))
      as (level & Hlevel & Hlen).
    rewrite Hlevel. cbn [bind app].
    pose proof (duplicate_last_if_odd_length merkle) as Hdup.
    pose proof (Nat.div2_odd (length (duplicate_last_if_odd merkle))) as Hhalf.
    apply IH.
    + unfold ltof. rewrite Hlen.
      destruct (Nat.odd (length (duplicate_last_if_odd merkle)));
        simpl in Hhalf; lia.
    + intros ->. simpl in Hlen.
      destruct (Nat.odd (length (duplicate_last_if_odd merkle)));
        simpl in Hhalf; lia.
  - destruct merkle as [|root [|second rest]].
    + contradiction.
    + now exists root.
    + simpl in Hsize. lia.
Qed.

(** What [build_merkle_tree] hands back, and what it leaves in the
    vector it was given. *)
Lemma build_merkle_tree_returns (merkle : hash_list) :
  exists root,
    build_merkle_tree merkle
    = Returned (root, if (length merkle <=? 1)%nat then merkle else [root]).
Proof.
  destruct merkle as [|first [|second rest]].
  - now exists null_hash.
  - now exists first.
  - destruct (merkle_rounds_returns (first :: second :: rest))
      as (root & Hroot); [discriminate|].
    exists root. cbn [build_merkle_tree]. rewrite Hroot. reflexivity.
Qed.

Lemma merkle_root_rounds (merkle : hash_list) :
  (1 < length merkle)%nat ->
  merkle_root merkle
  = (merkle' <- merkle_rounds merkle ;;
     match merkle' with
     | root :: _ => Returned root
     | [] => OutOfRange
     end)%outcome.
Proof.
  intros Hsize. unfold merkle_root, outcome_map.
  destruct merkle as [|first [|second rest]]; simpl in Hsize; try lia.
  cbn [build_merkle_tree].
  destruct (merkle_rounds (first :: second :: rest)) as [[|root level]| |];
    reflexivity.
Qed.
End MerkleProperties.

Section MerkleRootProperties.
Context `{Sha256}.

(** On an odd level of at least three digests the first round of the
    loop appends the last digest; from there on the run is the run on
    the level with that digest appended. *)
Lemma merkle_root_duplicate_last (merkle : hash_list) (back : hash_digest) :
  last merkle = Some back ->
  Nat.odd (length merkle) = true ->
  (3 <= length merkle)%nat ->
  exists root,
    merkle_root merkle = Returned root /\
    merkle_root (merkle ++ [back]) = Returned root.
Proof.
  intros Hlast Hodd Hsize.
  assert (Hrounds : merkle_rounds merkle = merkle_rounds (merkle ++ [back])).
  { rewrite (merkle_rounds_step merkle).
    rewrite (merkle_rounds_step (merkle ++ [back])).
    rewrite length_app. cbn [length].
    destruct (Nat.ltb_spec 1 (length merkle)); [|lia].
    destruct (Nat.ltb_spec 1 (length merkle + 1)); [|lia].
    unfold duplicate_last_if_odd.
    rewrite Hodd, Hlast, length_app. cbn [length].
    rewrite Nat.add_1_r, Nat.odd_succ, <- Nat.negb_odd, Hodd.
    reflexivity. }
  destruct (merkle_rounds_returns merkle) as (root & Hroot).
  { intros ->. simpl in Hsize. lia. }
  exists root.
  rewrite !merkle_root_rounds by (rewrite ?length_app; simpl; lia).
  rewrite <- Hrounds, Hroot. split; reflexivity.
Qed.

(** C8: the root of no digests is the all-zero digest, the root of
    one digest is that digest, and the root of two digests is the
    hash of the 64 bytes made of the first digest followed by the
    second. *)
Theorem merkle_root_small :
  merkle_root [] = Returned null_hash /\
  vec_to_list null_hash = replicate 32 x00 /\
  (forall h : hash_digest, merkle_root [h] = Returned h) /\
  (forall h1 h2 : hash_digest,
     length (vec_to_list h1 ++ vec_to_list h2) = 64%nat /\
     merkle_root [h1; h2]
     = Returned (generate_sha256_hash (vec_to_list h1 ++ vec_to_list h2))).
Proof.
  split; [reflexivity|]. split; [reflexivity|]. split; [reflexivity|].
  intros h1 h2. split.
  { now rewrite length_app, !hash_digest_length. }
  rewrite merkle_root_rounds by (simpl; lia).
  rewrite merkle_rounds_step.
  change (1 <? length [h1; h2])%nat with true. cbn iota.
  change (duplicate_last_if_odd [h1; h2]) with [h1; h2].
  cbn [pair_up]. rewrite hash_pair_returns. cbn [bind app].
  rewrite merkle_rounds_step. reflexivity.
Qed.

(** C7: the root of an odd number, three or more, of digests is the
    root of the same digests with the last one appended once more; in
    particular the roots of [h1; h2; h3] and [h1; h2; h3; h3]
    agree. *)
Theorem merkle_root_odd_level :
  (forall (merkle : hash_list) (back : hash_digest),
     last merkle = Some back ->
     Nat.odd (length merkle) = true ->
     (3 <= length merkle)%nat ->
     exists root,
       merkle_root merkle = Returned root /\
       merkle_root (merkle ++ [back]) = Returned root) /\
  (forall h1 h2 h3 : hash_digest,
     exists root,
       merkle_root [h1; h2; h3] = Returned root /\
       merkle_root [h1; h2; h3; h3] = Returned root).
Proof.
  split; [exact merkle_root_duplicate_last|].
  intros h1 h2 h3.
  apply (merkle_root_duplicate_last [h1; h2; h3] h3);
    [reflexivity | reflexivity | simpl; lia].
Qed.
End MerkleRootProperties.

Example merkle_root_three_digests :
  @merkle_root prefix_hash [null_hash; ones_hash; ones_hash]
  = @merkle_root prefix_hash [null_hash; ones_hash; ones_hash; ones_hash].
Proof. vm_compute. reflexivity. Qed.

Lemma merkle_root_odd_level_witness :
  last [null_hash; null_hash; null_hash] = Some null_hash /\
  Nat.odd (length [null_hash; null_hash; null_hash]) = true /\
  (3 <= length [null_hash; null_hash; null_hash])%nat /\
  exists root,
    @merkle_root prefix_hash [null_hash; null_hash; null_hash]
      = Returned root /\
    @merkle_root prefix_hash ([null_hash; null_hash; null_hash] ++ [null_hash])
      = Returned root.
Proof.
  split; [reflexivity|]. split; [reflexivity|]. split; [simpl; lia|].
  apply (proj1 (@merkle_root_odd_level prefix_hash));
    [reflexivity | reflexivity | simpl; lia].
Defined.

(** ** Output selection *)

Lemma value_greater_swo :
  strict_weak_order
    (fun a b : output_info_type => output_info.value a >? output_info.value b).
Proof.
  constructor.
  - intros a. rewrite Z.gtb_ltb. apply Z.ltb_irrefl.
  - intros a b c. rewrite !Z.gtb_ltb, !Z.ltb_lt. lia.
  - intros a b c. rewrite !Z.gtb_ltb, !Z.ltb_ge. lia.
Qed.

Lemma min_element_from_spec (smallest : output_info_type)
    (range : output_info_list) :
  let m := min_element_from
             (fun a b => output_info.value a <? output_info.value b)
             smallest range in
  In m (smallest :: range) /\
  Forall (fun x => output_info.value m <= output_info.value x)
         (smallest :: range).
Proof.
  revert smallest. induction range as [|x range IH]; intros smallest.
  - cbn. split; [now left | constructor; [lia | constructor]].
  - cbn [min_element_from].
    destruct (Z.ltb_spec (output_info.value x) (output_info.value smallest))
      as [Hlt|Hge].
    + destruct (IH x) as [Hin Hall]. split.
      * right. exact Hin.
      * inversion Hall as [|? ? Hx Hrange]; subst.
        constructor; [lia|]. now constructor.
    + destruct (IH smallest) as [Hin Hall]. split.
      * destruct Hin as [Heq|Hin]; [now left | right; now right].
      * inversion Hall as [|? ? Hs Hrange]; subst.
        constructor; [exact Hs|]. constructor; [lia | exact Hrange].
Qed.

Lemma sum_values_permutation (l l' : output_info_list) :
  Permutation l l' -> sum_values l = sum_values l'.
Proof.
  induction 1; cbn [sum_values] in *; lia.
Qed.

Lemma sum_values_nonneg (l : output_info_list) :
  Forall (fun c => 0 <= output_info.value c) l -> 0 <= sum_values l.
Proof.
  induction 1; cbn [sum_values] in *; lia.
Qed.

Lemma filter_id {A : Type} (pred : A -> bool) (l : list A) :
  Forall (fun x => pred x = true) l -> List.filter pred l = l.
Proof.
  induction 1 as [|x l Hx _ IH]; cbn [List.filter]; [reflexivity|].
  now rewrite Hx, IH.
Qed.

Section SelectOutputsProperties.
Context `{StdAlgorithm} `{SelectOutputsAlgorithm}.

(** The loop over the lesser outputs, as long as the running sum stays
    below 2^64. *)
Lemma accumulate_spec (min_value : Z) (it : output_info_list) :
  is_uint64 min_value ->
  Forall (fun c => 0 <= output_info.value c) it ->
  forall (result_points : list output_point) (accum : Z),
  0 <= accum < min_value ->
  accum + sum_values it < uint64_modulus ->
  (accum + sum_values it < min_value ->
   accumulate it min_value result_points accum
   = select_outputs_result_default) /\
  (min_value <= accum + sum_values it ->
   exists k,
     (k < length it)%nat /\
     (forall j, (j <= k)%nat -> accum + sum_values (take j it) < min_value) /\
     min_value <= accum + sum_values (take (S k) it) /\
     accumulate it min_value result_points accum
     = {| points := result_points
                    ++ map output_info.point (take (S k) it);
          change := accum + sum_values (take (S k) it) - min_value |}).
Proof.
  intros Hmin Hvalues.
  induction Hvalues as [|c it Hc Hit IH];
    intros result_points accum Haccum Hsum.
  - cbn [sum_values accumulate] in *.
    split; [reflexivity | lia].
  - cbn [sum_values] in Hsum |- *.
    pose proof (sum_values_nonneg it Hit) as Hrest.
    cbn [accumulate].
    rewrite (to_uint64_small (accum + output_info.value c))
      by (unfold is_uint64; lia).
    rewrite Z.geb_leb.
    destruct (Z.leb_spec min_value (accum + output_info.value c))
      as [Hreached|Hbelow].
    + split; [lia|]. intros _. exists 0%nat.
      cbn [take map sum_values length].
      rewrite Z.add_0_r.
      split; [lia|]. split.
      * intros j Hj. assert (j = 0%nat) as -> by lia.
        cbn [take sum_values]. lia.
      * split; [exact Hreached|].
        rewrite to_uint64_small by (unfold is_uint64 in *; lia).
        reflexivity.
    + destruct (IH (result_points ++ [output_info.point c])
                   (accum + output_info.value c)) as [IHfail IHok];
        [lia | lia |].
      split.
      * intros Hshort. apply IHfail. lia.
      * intros Henough. destruct IHok as (k & Hk & Hbefore & Hat & Hres);
          [lia|].
        exists (S k). cbn [length]. split; [lia|]. split.
        { intros [|j] Hj; cbn [take sum_values].
          - lia.
          - specialize (Hbefore j ltac:(lia)). lia. }
        split.
        { cbn [take sum_values]. lia. }
        rewrite Hres. cbn [take map sum_values].
        rewrite <- app_assoc. cbn [app]. f_equal. lia.
Qed.
End SelectOutputsProperties.

Lemma descending_of_sorted (l : output_info_list) :
  StronglySorted
    (fun a b => (output_info.value b >? output_info.value a) = false) l ->
  descending l.
Proof.
  unfold descending. induction 1 as [|a l _ IH Ha]; constructor; [exact IH|].
  eapply List.Forall_impl; [|exact Ha]. cbn beta.
  intros b. rewrite Z.gtb_ltb, Z.ltb_ge. lia.
Qed.

Lemma sum_values_ge (l : output_info_list) (c : output_info_type) :
  Forall (fun c => 0 <= output_info.value c) l ->
  In c l -> output_info.value c <= sum_values l.
Proof.
  induction 1 as [|x l Hx Hl IH]; cbn [In sum_values]; [contradiction|].
  pose proof (sum_values_nonneg l Hl).
  intros [->|Hin]; [lia | specialize (IH Hin); lia].
Qed.

Lemma wf_output_info_list_nonneg (l : output_info_list) :
  wf_output_info_list l -> Forall (fun c => 0 <= output_info.value c) l.
Proof.
  unfold wf_output_info_list, is_uint64. intros Hwf.
  eapply List.Forall_impl; [|exact Hwf]. cbn beta. lia.
Qed.

Section SelectOutputsCases.
Context `{StdAlgorithm} `{SelectOutputsAlgorithm}.

Lemma select_outputs_body_greedy (unspent : output_info_list) (min_value : Z) :
  forall alg, alg = greedy ->
  select_outputs_body unspent min_value alg
  = match unspent with
    | [] => Returned (select_outputs_result_default, unspent)
    | _ :: _ =>
        let parts :=
          std_partition
            (fun out_info => output_info.value out_info <? min_value)
            unspent in
        match std_min_element
                (fun info_a info_b =>
                   output_info.value info_a <? output_info.value info_b)
                (snd parts) with
        | Some min_greater =>
            Returned
              ({| points := [output_info.point min_greater];
                  change := to_uint64
                    (output_info.value min_greater - min_value) |},
               fst parts ++ snd parts)
        | None =>
            let lesser :=
              std_sort
                (fun info_a info_b =>
                   output_info.value info_a >? output_info.value info_b)
                (fst parts) in
            Returned (accumulate lesser min_value [] 0, lesser ++ snd parts)
        end
    end.
Proof.
  intros alg ->. unfold select_outputs_body, BITCOIN_ASSERT.
  rewrite bool_decide_eq_true_2 by reflexivity. reflexivity.
Qed.

(** What [std::partition] leaves before and after [lesser_end]. *)
Lemma partition_lesser_greater (unspent : output_info_list) (min_value : Z) :
  let parts :=
    std_partition (fun out_info => output_info.value out_info <? min_value)
                  unspent in
  Permutation (fst parts ++ snd parts) unspent /\
  Forall (fun c => output_info.value c < min_value) (fst parts) /\
  Forall (fun c => min_value <= output_info.value c) (snd parts).
Proof.
  cbn zeta. split; [apply std_partition_permutation|]. split.
  - eapply List.Forall_impl; [|apply std_partition_first]. cbn beta.
    intros c. now rewrite Z.ltb_lt.
  - eapply List.Forall_impl; [|apply std_partition_second]. cbn beta.
    intros c. now rewrite Z.ltb_ge.
Qed.

(** Some candidate covers [min_value] on its own: the smallest such
    candidate is selected. *)
Lemma select_outputs_sufficient (unspent : output_info_list) (min_value : Z) :
  is_uint64 min_value ->
  wf_output_info_list unspent ->
  Exists (fun c => min_value <= output_info.value c) unspent ->
  exists result,
    select_outputs unspent min_value greedy = Returned result /\
    smallest_sufficient unspent min_value result.
Proof.
  intros Hmin Hwf Hsome.
  unfold select_outputs. rewrite select_outputs_body_greedy by reflexivity.
  destruct (partition_lesser_greater unspent min_value)
    as (Hperm & Hlesser & Hgreater).
  cbn zeta in *.
  set (parts := std_partition _ unspent) in *.
  assert (Hin_greater : forall c, In c unspent ->
            min_value <= output_info.value c -> In c (snd parts)).
  { intros c Hc Hcovers.
    apply (Permutation_in _ (Permutation_sym Hperm)) in Hc.
    apply in_app_or in Hc as [Hc|Hc]; [|exact Hc].
    rewrite List.Forall_forall in Hlesser. specialize (Hlesser c Hc). lia. }
  destruct unspent as [|first rest].
  { inversion Hsome. }
  destruct (snd parts) as [|g greater'] eqn:Hparts.
  { apply List.Exists_exists in Hsome as (c & Hc & Hcovers).
    destruct (Hin_greater c Hc Hcovers). }
  cbn [std_min_element].
  destruct (min_element_from_spec g greater') as [Hm Hsmallest].
  set (m := min_element_from _ g greater') in *.
  eexists. split; [reflexivity|].
  assert (Hm_unspent : In m (first :: rest)).
  { apply (Permutation_in _ Hperm), in_or_app. now right. }
  assert (Hm_covers : min_value <= output_info.value m).
  { rewrite List.Forall_forall in Hgreater. now apply Hgreater. }
  exists m. cbn [points change fst].
  split; [exact Hm_unspent|]. split; [exact Hm_covers|]. split.
  - intros c' Hc' Hcovers. rewrite List.Forall_forall in Hsmallest.
    apply Hsmallest. now apply Hin_greater.
  - split; [reflexivity|]. apply to_uint64_small.
    unfold wf_output_info_list in Hwf. rewrite List.Forall_forall in Hwf.
    specialize (Hwf m Hm_unspent). unfold is_uint64 in *. lia.
Qed.

(** No candidate covers [min_value] on its own: the candidates are
    taken largest first; as long as their total stays below 2^64, the
    call fails when the total is short of [min_value] and otherwise
    stops at the first candidate that reaches it. *)
Lemma select_outputs_accumulates (unspent : output_info_list) (min_value : Z) :
  is_uint64 min_value ->
  wf_output_info_list unspent ->
  unspent <> [] ->
  ~ Exists (fun c => min_value <= output_info.value c) unspent ->
  sum_values unspent < uint64_modulus ->
  exists result,
    select_outputs unspent min_value greedy = Returned result /\
    (sum_values unspent < min_value ->
     result = select_outputs_result_default) /\
    (min_value <= sum_values unspent ->
     accumulated_lesser unspent min_value result).
Proof.
  intros Hmin Hwf Hnonempty Hnone Hsum.
  unfold select_outputs. rewrite select_outputs_body_greedy by reflexivity.
  destruct (partition_lesser_greater unspent min_value)
    as (Hperm & Hlesser & Hgreater).
  cbn zeta in *.
  set (parts := std_partition _ unspent) in *.
  apply List.Forall_Exists_neg in Hnone.
  assert (Hempty : snd parts = []).
  { destruct (snd parts) as [|g greater']; [reflexivity|]. exfalso.
    inversion Hgreater as [|? ? Hg _]; subst.
    rewrite List.Forall_forall in Hnone. apply (Hnone g); [|exact Hg].
    apply (Permutation_in _ Hperm), in_or_app. right. now left. }
  rewrite Hempty, app_nil_r in *.
  destruct unspent as [|first rest]; [contradiction|].
  cbn [std_min_element].
  set (sorted := std_sort _ (fst parts)).
  assert (Hsorted : Permutation sorted (first :: rest)).
  { unfold sorted. rewrite std_sort_permutation. exact Hperm. }
  pose proof (wf_output_info_list_nonneg _ Hwf) as Hnonneg.
  assert (Hpositive : 0 < min_value).
  { inversion Hnonneg; subst. inversion Hnone; subst. lia. }
  destruct (accumulate_spec min_value sorted Hmin) with
    (result_points := @nil output_point) (accum := 0) as [Hfail Hok].
  - eapply Permutation_Forall; [symmetry; exact Hsorted | exact Hnonneg].
  - lia.
  - rewrite (sum_values_permutation _ _ Hsorted). lia.
  - rewrite (sum_values_permutation _ _ Hsorted) in Hfail, Hok.
    eexists. split; [reflexivity|]. cbn [fst]. split.
    + intros Hshort. apply Hfail. lia.
    + intros Henough. destruct Hok as (k & Hk & Hbefore & Hat & Hres); [lia|].
      exists sorted, k. split.
      * rewrite filter_id; [exact Hsorted|].
        eapply List.Forall_impl; [|exact Hnone]. cbn beta.
        intros c Hc. apply Z.ltb_lt. lia.
      * split.
        { apply descending_of_sorted. unfold sorted.
          apply std_sort_sorted, value_greater_swo. }
        split; [exact Hk|]. split.
        { intros j Hj. specialize (Hbefore j Hj). lia. }
        split; [lia|]. rewrite Hres. cbn [points change app].
        split; [reflexivity | lia].
Qed.
End SelectOutputsCases.

Lemma accumulated_lesser_nonempty unspent min_value result :
  accumulated_lesser unspent min_value result -> points result <> [].
Proof.
  intros (sorted & k & _ & _ & Hk & _ & _ & Hpoints & _).
  rewrite Hpoints. destruct sorted as [|c sorted]; [simpl in Hk; lia|].
  discriminate.
Qed.

Lemma wf_candidates (l : output_info_list) :
  forallb (fun c => (0 <=? output_info.value c)
                    && (output_info.value c <? uint64_modulus)) l = true ->
  wf_output_info_list l.
Proof.
  unfold wf_output_info_list, is_uint64.
  induction l as [|c l IH]; cbn [forallb]; [constructor|].
  rewrite !andb_true_iff, Z.leb_le, Z.ltb_lt.
  intros [Hc Hl]. constructor; [exact Hc | now apply IH].
Defined.

Lemma no_candidate_covers (l : output_info_list) (min_value : Z) :
  forallb (fun c => output_info.value c <? min_value) l = true ->
  ~ Exists (fun c => min_value <= output_info.value c) l.
Proof.
  induction l as [|c l IH]; cbn [forallb].
  - intros _ Hex. inversion Hex.
  - rewrite andb_true_iff, Z.ltb_lt. intros [Hc Hl] Hex.
    inversion Hex; subst; [lia | now apply IH].
Defined.

Section SelectOutputsTotals.
Context `{StdAlgorithm} `{SelectOutputsAlgorithm}.

(** With [greedy] the function always returns. *)
Lemma select_outputs_greedy_returns (unspent : output_info_list)
    (min_value : Z) :
  exists result unspent',
    select_outputs_body unspent min_value greedy
    = Returned (result, unspent').
Proof.
  rewrite select_outputs_body_greedy by reflexivity.
  destruct unspent as [|first rest]; [now eexists; eexists|].
  cbn zeta. destruct (std_min_element _ _); now eexists; eexists.
Qed.

(** When the total of the candidates stays below 2^64, the call fails
    exactly when there is no candidate or the total is short. *)
Lemma select_outputs_fails_iff (unspent : output_info_list) (min_value : Z) :
  is_uint64 min_value ->
  wf_output_info_list unspent ->
  sum_values unspent < uint64_modulus ->
  exists result,
    select_outputs unspent min_value greedy = Returned result /\
    (points result = [] <->
     unspent = [] \/ sum_values unspent < min_value).
Proof.
  intros Hmin Hwf Hsum.
  destruct unspent as [|first rest] eqn:Hunspent.
  { unfold select_outputs.
    rewrite select_outputs_body_greedy by reflexivity.
    eexists. split; [reflexivity|]. cbn. split; [now left | reflexivity]. }
  rewrite <- Hunspent in *.
  assert (Hnonempty : unspent <> []) by (rewrite Hunspent; discriminate).
  destruct (List.Exists_dec (fun c => min_value <= output_info.value c)
              unspent (fun c => Z_le_dec min_value (output_info.value c)))
    as [Hsome|Hnone].
  - destruct (select_outputs_sufficient unspent min_value Hmin Hwf Hsome)
      as (result & Hresult & c & Hc & Hcovers & _ & Hpoints & _).
    exists result. split; [exact Hresult|]. rewrite Hpoints.
    pose proof (sum_values_ge unspent c
                  (wf_output_info_list_nonneg _ Hwf) Hc) as Hge.
    split; [discriminate|]. intros [Hnil|Hshort]; [contradiction | lia].
  - destruct (select_outputs_accumulates unspent min_value
                Hmin Hwf Hnonempty Hnone Hsum)
      as (result & Hresult & Hfail & Hok).
    exists result. split; [exact Hresult|]. split.
    + intros Hpoints. right.
      destruct (Z.lt_ge_cases (sum_values unspent) min_value)
        as [Hshort|Henough]; [exact Hshort|].
      now apply Hok, accumulated_lesser_nonempty in Henough.
    + intros [Hnil|Hshort]; [contradiction|].
      now rewrite (Hfail Hshort).
Qed.

(** Whichever way the two large candidates are ordered, the running
    sum wraps below [min_value] and the loop runs out. *)
Lemma select_outputs_large_candidates :
  select_outputs large_candidates 18446744073709551615 greedy
  = Returned select_outputs_result_default.
Proof.
  unfold select_outputs. rewrite select_outputs_body_greedy by reflexivity.
  destruct (partition_lesser_greater large_candidates 18446744073709551615)
    as (Hperm & Hlesser & Hgreater).
  unfold large_candidates in *. cbn zeta in *.
  set (parts := std_partition _ _) in *.
  assert (Hempty : snd parts = []).
  { destruct (snd parts) as [|g greater']; [reflexivity|]. exfalso.
    inversion Hgreater as [|? ? Hg _]; subst.
    assert (Hin : In g [candidate 0 18446744073709551614;
                        candidate 1 18446744073709551614]).
    { apply (Permutation_in _ Hperm), in_or_app. right. now left. }
    destruct Hin as [<-|[<-|[]]]; cbn in Hg; lia. }
  rewrite Hempty, app_nil_r in *. cbn [std_min_element].
  set (sorted := std_sort _ (fst parts)).
  assert (Hsorted : Permutation
            [candidate 0 18446744073709551614;
             candidate 1 18446744073709551614] sorted).
  { unfold sorted. rewrite std_sort_permutation. now symmetry. }
  apply Permutation_length_2_inv in Hsorted as [-> | ->]; reflexivity.
Qed.
End SelectOutputsTotals.

Lemma select_outputs_small_candidates :
  @select_outputs reference_algorithm int_enumeration small_candidates 100 0
  = Returned select_outputs_result_default.
Proof. vm_compute. reflexivity. Qed.

(** The specification's sample selections, run with the stable
    partition and the insertion sort. *)
Example select_outputs_single_candidate :
  @select_outputs reference_algorithm int_enumeration [candidate 0 150] 100 0
  = Returned {| points := [ {| hash := null_hash; index := 0 |} ];
                change := 50 |}.
Proof. vm_compute. reflexivity. Qed.

Example select_outputs_three_candidates :
  @select_outputs reference_algorithm int_enumeration three_candidates 100 0
  = Returned {| points := [ {| hash := null_hash; index := 2 |};
                            {| hash := null_hash; index := 1 |} ];
                change := 30 |}.
Proof. vm_compute. reflexivity. Qed.

Example select_outputs_no_candidate :
  @select_outputs reference_algorithm int_enumeration [] 100 0
  = Returned select_outputs_result_default.
Proof. vm_compute. reflexivity. Qed.

(** Three candidates of 2^63-1 and a target of 2^63: the total is above
    2^64, the sum of the two candidates that are selected is not. *)
Example select_outputs_half_range_candidates :
  @select_outputs reference_algorithm int_enumeration
    half_range_candidates 9223372036854775808 0
  = Returned {| points := [ {| hash := null_hash; index := 0 |};
                            {| hash := null_hash; index := 1 |} ];
                change := 9223372036854775806 |}.
Proof. vm_compute. reflexivity. Qed.

(** C4 as the specification states it fails.  For candidates of 30 and
    40 and a target of 100 the call returns no point at all, not the
    accumulated lesser candidates; for two candidates of 2^64-2 and a
    target of 2^64-1 it returns no point either, although the second
    candidate brings the sum above the target. *)
Lemma select_outputs_not_as_specified :
  (small_candidates <> [] /\
   wf_output_info_list small_candidates /\
   ~ (exists result,
        @select_outputs reference_algorithm int_enumeration
          small_candidates 100 greedy = Returned result /\
        selection_as_specified small_candidates 100 result)) /\
  (large_candidates <> [] /\
   wf_output_info_list large_candidates /\
   ~ (exists result,
        @select_outputs reference_algorithm int_enumeration
          large_candidates 18446744073709551615 greedy = Returned result /\
        selection_as_specified large_candidates 18446744073709551615 result)).
Proof.
  split.
  - split; [discriminate|]. split; [now apply wf_candidates|].
    intros (result & Hresult & _ & Hlesser).
    change (@greedy int_enumeration) with 0 in Hresult.
    rewrite select_outputs_small_candidates in Hresult.
    injection Hresult as <-.
    apply (accumulated_lesser_nonempty small_candidates 100
             select_outputs_result_default); [|reflexivity].
    apply Hlesser. now apply no_candidate_covers.
  - split; [discriminate|]. split; [now apply wf_candidates|].
    intros (result & Hresult & _ & Hlesser).
    rewrite select_outputs_large_candidates in Hresult.
    injection Hresult as <-.
    apply (accumulated_lesser_nonempty large_candidates 18446744073709551615
             select_outputs_result_default); [|reflexivity].
    apply Hlesser. now apply no_candidate_covers.
Qed.

(** Two descending arrangements of the same candidates show the same
    values in the same places. *)
Lemma descending_values (sorted sorted' : output_info_list) :
  Permutation sorted sorted' ->
  descending sorted ->
  descending sorted' ->
  map output_info.value sorted = map output_info.value sorted'.
Proof.
  intros Hperm Hsorted Hsorted'.
  assert (Hmap : forall l, descending l ->
            StronglySorted (fun a b : Z => b <= a) (map output_info.value l)).
  { intros l. unfold descending.
    induction 1 as [|c l _ IH Hc]; cbn [map]; constructor; [exact IH|].
    clear IH. induction Hc; cbn [map]; now constructor. }
  apply Permutation_map with (f := output_info.value) in Hperm.
  pose proof (Hmap _ Hsorted) as Hvalues.
  pose proof (Hmap _ Hsorted') as Hvalues'.
  revert Hperm Hvalues Hvalues'.
  generalize (map output_info.value sorted) as values.
  generalize (map output_info.value sorted') as values'.
  intros values' values Hperm Hvalues. revert values' Hperm.
  induction Hvalues as [|a values _ IH Ha]; intros values' Hperm Hvalues'.
  - apply Permutation_nil in Hperm. now subst.
  - destruct values' as [|b values'].
    { symmetry in Hperm. now apply Permutation_nil_cons in Hperm. }
    inversion Hvalues' as [|? ? Hrest Hb]; subst.
    assert (Hab : a = b).
    { rewrite List.Forall_forall in Ha, Hb.
      assert (Hin : In a (b :: values'))
        by (apply (Permutation_in _ Hperm); now left).
      assert (Hin' : In b (a :: values))
        by (apply (Permutation_in _ (Permutation_sym Hperm)); now left).
      destruct Hin as [Heq|Hin]; [now subst|].
      destruct Hin' as [Heq|Hin']; [now subst|].
      specialize (Ha b Hin'). specialize (Hb a Hin). lia. }
    subst b. f_equal. apply IH; [|exact Hrest].
    now apply Permutation_cons_inv in Hperm.
Qed.

Lemma sum_values_take_values (l l' : output_info_list) :
  map output_info.value l = map output_info.value l' ->
  forall j, sum_values (take j l) = sum_values (take j l').
Proof.
  revert l'. induction l as [|c l IH]; intros [|c' l'] Hmap j;
    try discriminate; [reflexivity|].
  injection Hmap as Hc Hmap.
  destruct j as [|j]; [reflexivity|].
  cbn [take sum_values]. now rewrite Hc, (IH l' Hmap j).
Qed.

Section SelectOutputsFirstReach.
Context `{StdAlgorithm} `{SelectOutputsAlgorithm}.

(** The loop stops at the first candidate at which the running sum
    reaches [min_value], as long as that sum is below 2^64; what lies
    behind that candidate does not matter. *)
Lemma accumulate_first_reach (min_value : Z) (it : output_info_list) :
  is_uint64 min_value ->
  Forall (fun c => 0 <= output_info.value c) it ->
  forall (k : nat) (result_points : list output_point) (accum : Z),
  0 <= accum ->
  (k < length it)%nat ->
  (forall j, (j <= k)%nat -> accum + sum_values (take j it) < min_value) ->
  min_value <= accum + sum_values (take (S k) it) < uint64_modulus ->
  accumulate it min_value result_points accum
  = {| points := result_points ++ map output_info.point (take (S k) it);
       change := accum + sum_values (take (S k) it) - min_value |}.
Proof.
  intros Hmin Hvalues.
  induction Hvalues as [|c it Hc Hit IH];
    intros k result_points accum Haccum Hk Hbefore Hat.
  - cbn in Hk. lia.
  - cbn [accumulate]. rewrite Z.geb_leb.
    pose proof (Hbefore 0%nat ltac:(lia)) as Hstart.
    cbn [take sum_values] in Hstart.
    destruct k as [|k].
    + cbn [take map sum_values] in *.
      rewrite Z.add_0_r in Hat.
      rewrite (to_uint64_small (accum + output_info.value c))
        by (unfold is_uint64; lia).
      destruct (Z.leb_spec min_value (accum + output_info.value c)); [|lia].
      rewrite to_uint64_small by (unfold is_uint64 in *; lia).
      now rewrite Z.add_0_r.
    + pose proof (Hbefore 1%nat ltac:(lia)) as Hfirst.
      cbn [take sum_values] in Hfirst. rewrite Z.add_0_r in Hfirst.
      rewrite (to_uint64_small (accum + output_info.value c))
        by (unfold is_uint64 in *; lia).
      destruct (Z.leb_spec min_value (accum + output_info.value c)); [lia|].
      rewrite (IH k (result_points ++ [output_info.point c])
                  (accum + output_info.value c)).
      * cbn [take map sum_values]. rewrite <- app_assoc. cbn [app].
        f_equal. lia.
      * lia.
      * cbn [length] in Hk. lia.
      * intros j Hj. specialize (Hbefore (S j) ltac:(lia)).
        cbn [take sum_values] in Hbefore. lia.
      * cbn [take sum_values] in Hat. lia.
Qed.

(** No candidate covers [min_value] on its own, and in descending order
    the first running sum that reaches [min_value] is below 2^64: the
    candidates up to that one are selected. *)
Lemma select_outputs_first_reach (unspent : output_info_list) (min_value : Z)
    (sorted : output_info_list) (k : nat) :
  is_uint64 min_value ->
  wf_output_info_list unspent ->
  ~ Exists (fun c => min_value <= output_info.value c) unspent ->
  Permutation sorted unspent ->
  descending sorted ->
  (k < length sorted)%nat ->
  (forall j, (j <= k)%nat -> sum_values (take j sorted) < min_value) ->
  min_value <= sum_values (take (S k) sorted) < uint64_modulus ->
  exists result,
    select_outputs unspent min_value greedy = Returned result /\
    accumulated_lesser unspent min_value result.
Proof.
  intros Hmin Hwf Hnone Hperm0 Hdesc0 Hk Hbefore Hat.
  unfold select_outputs. rewrite select_outputs_body_greedy by reflexivity.
  destruct (partition_lesser_greater unspent min_value)
    as (Hperm & Hlesser & Hgreater).
  cbn zeta in *.
  set (parts := std_partition _ unspent) in *.
  apply List.Forall_Exists_neg in Hnone.
  assert (Hempty : snd parts = []).
  { destruct (snd parts) as [|g greater']; [reflexivity|]. exfalso.
    inversion Hgreater as [|? ? Hg _]; subst.
    rewrite List.Forall_forall in Hnone. apply (Hnone g); [|exact Hg].
    apply (Permutation_in _ Hperm), in_or_app. right. now left. }
  rewrite Hempty, app_nil_r in *.
  destruct unspent as [|first rest].
  { symmetry in Hperm0. apply Permutation_nil in Hperm0. subst.
    cbn in Hk. lia. }
  cbn [std_min_element].
  set (code_sorted := std_sort _ (fst parts)).
  assert (Hsorted : Permutation code_sorted (first :: rest)).
  { unfold code_sorted. rewrite std_sort_permutation. exact Hperm. }
  assert (Hdesc : descending code_sorted).
  { apply descending_of_sorted. unfold code_sorted.
    apply std_sort_sorted, value_greater_swo. }
  assert (Hvalues : map output_info.value code_sorted
                    = map output_info.value sorted).
  { apply descending_values; [|exact Hdesc|exact Hdesc0].
    now rewrite Hsorted, Hperm0. }
  pose proof (sum_values_take_values _ _ Hvalues) as Hsums.
  assert (Hlength : length code_sorted = length sorted).
  { rewrite <- (length_map output_info.value code_sorted), Hvalues.
    apply length_map. }
  pose proof (wf_output_info_list_nonneg _ Hwf) as Hnonneg.
  eexists. split; [reflexivity|]. cbn [fst].
  rewrite (accumulate_first_reach min_value code_sorted Hmin) with (k := k).
  - exists code_sorted, k. split.
    { rewrite filter_id; [exact Hsorted|].
      eapply List.Forall_impl; [|exact Hnone]. cbn beta.
      intros c Hc. apply Z.ltb_lt. lia. }
    split; [exact Hdesc|]. split; [lia|]. split.
    { intros j Hj. rewrite Hsums. now apply Hbefore. }
    split; [rewrite Hsums; lia|].
    cbn [points change app]. split; [reflexivity | lia].
  - eapply Permutation_Forall; [symmetry; exact Hsorted | exact Hnonneg].
  - lia.
  - lia.
  - intros j Hj. rewrite Hsums. specialize (Hbefore j Hj). lia.
  - rewrite Hsums. lia.
Qed.
End SelectOutputsFirstReach.

Section SelectOutputsTheorems.
Context `{StdAlgorithm} `{SelectOutputsAlgorithm}.

(** C4, amended: for a non-empty candidate list, if some candidate has
    value >= targetValue the call returns exactly one point, that of a
    candidate of smallest value among those, with change that value
    minus targetValue.  Otherwise, if with the candidates taken in
    descending value order the first running sum that reaches
    targetValue is below 2^64, it returns in order the points of the
    candidates taken in descending value order, up to and including
    the first at which the running sum reaches targetValue, with change
    that sum minus targetValue; and if the candidates' total is below
    targetValue it returns the result without points. *)
Theorem select_outputs_selection (unspent : output_info_list)
    (min_value : Z) :
  unspent <> [] ->
  wf_output_info_list unspent ->
  is_uint64 min_value ->
  exists result,
    select_outputs unspent min_value greedy = Returned result /\
    (Exists (fun c => min_value <= output_info.value c) unspent ->
     smallest_sufficient unspent min_value result) /\
    (~ Exists (fun c => min_value <= output_info.value c) unspent ->
     (forall (sorted : output_info_list) (k : nat),
        Permutation sorted unspent ->
        descending sorted ->
        (k < length sorted)%nat ->
        (forall j, (j <= k)%nat -> sum_values (take j sorted) < min_value) ->
        min_value <= sum_values (take (S k) sorted) < 2 ^ 64 ->
        accumulated_lesser unspent min_value result) /\
     (sum_values unspent < min_value -> points result = [])).
Proof.
  intros Hnonempty Hwf Hmin.
  destruct (List.Exists_dec (fun c => min_value <= output_info.value c)
              unspent (fun c => Z_le_dec min_value (output_info.value c)))
    as [Hsome|Hnone].
  - destruct (select_outputs_sufficient unspent min_value Hmin Hwf Hsome)
      as (result & Hresult & Hsmallest).
    exists result. split; [exact Hresult|].
    split; [intros _; exact Hsmallest | intros Hnone; contradiction].
  - destruct (select_outputs_greedy_returns unspent min_value)
      as (result & unspent' & Hbody).
    assert (Hresult : select_outputs unspent min_value greedy
                      = Returned result).
    { unfold select_outputs. now rewrite Hbody. }
    exists result. split; [exact Hresult|].
    split; [intros Hsome; contradiction|]. intros _. split.
    + intros sorted k Hperm Hdesc Hk Hbefore Hat.
      destruct (select_outputs_first_reach unspent min_value sorted k
                  Hmin Hwf Hnone Hperm Hdesc Hk Hbefore Hat)
        as (result' & Hresult' & Hlesser).
      rewrite Hresult in Hresult'. injection Hresult' as <-.
      exact Hlesser.
    + intros Hshort.
      assert (Hsum : sum_values unspent < uint64_modulus)
        by (unfold is_uint64 in Hmin; lia).
      destruct (select_outputs_accumulates unspent min_value
                  Hmin Hwf Hnonempty Hnone Hsum)
        as (result' & Hresult' & Hfail & _).
      rewrite Hresult in Hresult'. injection Hresult' as <-.
      now rewrite (Hfail Hshort).
Qed.

(** C5 at two candidates of 2^64-2 each and a target of 2^64-1: the
    list is not empty and its total is well above the target, yet the
    64-bit running sum wraps to 2^64-4 and the call returns the result
    without points. *)
Theorem select_outputs_fails_on_wrapped_sum :
  large_candidates <> [] /\
  wf_output_info_list large_candidates /\
  is_uint64 18446744073709551615 /\
  ~ sum_values large_candidates < 18446744073709551615 /\
  to_uint64 (sum_values large_candidates) = 18446744073709551612 /\
  exists result,
    select_outputs large_candidates 18446744073709551615 greedy
    = Returned result /\
    points result = [].
Proof.
  split; [discriminate|]. split; [now apply wf_candidates|].
  split; [unfold is_uint64, uint64_modulus; lia|].
  split; [cbn; lia|]. split; [reflexivity|].
  exists select_outputs_result_default.
  split; [apply select_outputs_large_candidates | reflexivity].
Qed.

(** C10: with any strategy other than [greedy] the assertion at the
    head of the function fails, whatever the candidates and the
    target are; with [greedy] the function always returns. *)
Theorem select_outputs_only_greedy :
  (forall (unspent : output_info_list) (min_value : Z)
          (alg : select_outputs_algorithm),
     alg <> greedy ->
     select_outputs_body unspent min_value alg = AssertionFailed /\
     select_outputs unspent min_value alg = AssertionFailed) /\
  (forall (unspent : output_info_list) (min_value : Z),
     exists result,
       select_outputs unspent min_value greedy = Returned result).
Proof.
  split.
  - intros unspent min_value alg Halg.
    assert (Hbody : select_outputs_body unspent min_value alg
                    = AssertionFailed).
    { unfold select_outputs_body, BITCOIN_ASSERT.
      now rewrite bool_decide_eq_false_2. }
    split; [exact Hbody|]. unfold select_outputs. now rewrite Hbody.
  - intros unspent min_value.
    destruct (select_outputs_greedy_returns unspent min_value)
      as (result & unspent' & Hbody).
    exists result. unfold select_outputs. now rewrite Hbody.
Qed.
End SelectOutputsTheorems.

Lemma select_outputs_selection_witness :
  half_range_candidates <> [] /\
  wf_output_info_list half_range_candidates /\
  is_uint64 9223372036854775808 /\
  exists result,
    @select_outputs reference_algorithm int_enumeration
      half_range_candidates 9223372036854775808 greedy = Returned result /\
    accumulated_lesser half_range_candidates 9223372036854775808 result.
Proof.
  assert (Hnonempty : half_range_candidates <> []) by discriminate.
  assert (Hwf : wf_output_info_list half_range_candidates)
    by (apply wf_candidates; reflexivity).
  assert (Hmin : is_uint64 9223372036854775808)
    by (unfold is_uint64, uint64_modulus; lia).
  split; [exact Hnonempty|]. split; [exact Hwf|]. split; [exact Hmin|].
  destruct (@select_outputs_selection reference_algorithm int_enumeration
              half_range_candidates 9223372036854775808 Hnonempty Hwf Hmin)
    as (result & Hresult & _ & Hlesser).
  exists result. split; [exact Hresult|].
  apply (proj1 (Hlesser (no_candidate_covers half_range_candidates
                           9223372036854775808 eq_refl))
           half_range_candidates 1%nat).
  - reflexivity.
  - unfold descending, half_range_candidates.
    repeat constructor; cbn; lia.
  - cbn. lia.
  - intros [|[|j]] Hj; cbn; lia.
  - cbn. lia.
Defined.

Lemma select_outputs_only_greedy_witness :
  (1 : @select_outputs_algorithm int_enumeration) <> greedy /\
  @select_outputs reference_algorithm int_enumeration three_candidates 100 1
  = AssertionFailed.
Proof.
  assert (Halg : (1 : @select_outputs_algorithm int_enumeration) <> greedy)
    by discriminate.
  split; [exact Halg|].
  exact (proj2 (proj1 (@select_outputs_only_greedy
                         reference_algorithm int_enumeration)
                      three_candidates 100 1 Halg)).
Defined.

(** ** What the caller's vectors hold after a call *)

(** C6 as the specification states it fails for [build_merkle_tree]:
    called on a vector of two digests it leaves one digest, the root,
    in the caller's vector. *)
Lemma build_merkle_tree_overwrites_argument :
  call_by_reference (@build_merkle_tree prefix_hash) [null_hash; ones_hash]
  = Returned (null_hash, [null_hash]) /\
  [null_hash] <> [null_hash; ones_hash].
Proof.
  split; [vm_compute; reflexivity | discriminate].
Qed.

Section CallerVectors.
Context `{Sha256} `{StdAlgorithm} `{SelectOutputsAlgorithm}.

(** C6, amended: [select_outputs] only reads its input: it works on a
    copy of the candidate list, and the caller's list is the same
    after the call.  [build_merkle_tree] works in place on the
    caller's sequence: a sequence of at most one digest is left as it
    was, and a longer one holds exactly one digest, the root, when the
    call returns. *)
Theorem caller_vectors_after_calls :
  (forall merkle : hash_list,
     exists root,
       call_by_reference build_merkle_tree merkle
       = Returned (root,
                   if (length merkle <=? 1)%nat then merkle else [root])) /\
  (forall (unspent : output_info_list) (min_value : Z),
     exists result,
       call_by_value
         (fun unspent => select_outputs_body unspent min_value greedy)
         unspent
       = Returned (result, unspent)).
Proof.
  split.
  - intros merkle. apply build_merkle_tree_returns.
  - intros unspent min_value. unfold call_by_value, outcome_map.
    destruct (select_outputs_greedy_returns unspent min_value)
      as (result & unspent' & Hbody).
    exists result. now rewrite Hbody.
Qed.
End CallerVectors.

(** * Further properties of transaction.cpp *)

(** ** Comparing output points *)

(** X1: [operator==] on output points holds exactly of equal points and
    [operator!=] exactly of different ones; a previous output is null
    exactly when it compares equal to the null output point. *)
Theorem output_point_equality (output_a output_b : output_point) :
  (output_point_eq output_a output_b = true <-> output_a = output_b) /\
  (output_point_ne output_a output_b = true <-> output_a <> output_b) /\
  previous_output_is_null output_a
  = output_point_eq output_a null_output_point.
Proof.
  assert (Heq : output_point_eq output_a output_b = true
                <-> output_a = output_b).
  { unfold output_point_eq.
    rewrite andb_true_iff, bool_decide_eq_true, Z.eqb_eq.
    destruct output_a as [hash_a index_a], output_b as [hash_b index_b].
    cbn [hash index]. split.
    - intros [-> ->]. reflexivity.
    - intros [= -> ->]. now split. }
  split; [exact Heq|]. split.
  - unfold output_point_ne. rewrite negb_true_iff, <- not_true_iff_false.
    now rewrite Heq.
  - unfold previous_output_is_null, output_point_eq, null_output_point.
    cbn [hash index]. apply andb_comm.
Qed.

(** ** Finality *)

(** X2: an elapsed lock makes the transaction final whatever the
    sequences of its inputs are: a height lock once the block height,
    taken below 2^32, is above [locktime], a time lock once the block
    time is above it. *)
Theorem is_final_elapsed_lock (tx : transaction_type)
    (block_height block_time : Z) :
  is_uint32 block_height ->
  locktime tx < applicable_reference tx block_height block_time ->
  is_final tx block_height block_time = true.
Proof.
  intros Hheight Helapsed. unfold is_final, applicable_reference in *.
  destruct (locktime tx =? 0); [reflexivity|].
  rewrite (to_uint32_small _ Hheight).
  destruct (locktime tx <? locktime_threshold);
    apply Z.ltb_lt in Helapsed; now rewrite Helapsed.
Qed.

Lemma is_final_elapsed_lock_witness :
  is_uint32 2 /\
  locktime height_locked_transaction
    < applicable_reference height_locked_transaction 2 0 /\
  is_final height_locked_transaction 2 0 = true.
Proof.
  assert (Hheight : is_uint32 2) by (unfold is_uint32, uint32_modulus; lia).
  assert (Helapsed : locktime height_locked_transaction
                     < applicable_reference height_locked_transaction 2 0).
  { unfold applicable_reference.
    cbn [height_locked_transaction locktime]. simpl. lia. }
  split; [exact Hheight|]. split; [exact Helapsed|].
  exact (is_final_elapsed_lock height_locked_transaction 2 0
           Hheight Helapsed).
Defined.

(** X3: finality is kept as the chain grows: a transaction final at
    some block height and time is final at every later height and
    time, as long as the heights are below 2^32. *)
Theorem is_final_monotone (tx : transaction_type)
    (block_height block_time later_height later_time : Z) :
  is_uint32 block_height ->
  is_uint32 later_height ->
  block_height <= later_height ->
  block_time <= later_time ->
  is_final tx block_height block_time = true ->
  is_final tx later_height later_time = true.
Proof.
  intros Hheight Hlater Hh Ht. unfold is_final.
  destruct (locktime tx =? 0); [reflexivity|].
  rewrite (to_uint32_small _ Hheight), (to_uint32_small _ Hlater).
  destruct (locktime tx <? locktime_threshold).
  - destruct (Z.ltb_spec (locktime tx) block_height) as [Hlt|Hge].
    + intros _. destruct (Z.ltb_spec (locktime tx) later_height); [|lia].
      reflexivity.
    + intros Hinputs. rewrite Hinputs. now destruct (_ <? _).
  - destruct (Z.ltb_spec (locktime tx) block_time) as [Hlt|Hge].
    + intros _. destruct (Z.ltb_spec (locktime tx) later_time); [|lia].
      reflexivity.
    + intros Hinputs. rewrite Hinputs. now destruct (_ <? _).
Qed.

Lemma is_final_monotone_witness :
  is_final height_locked_transaction 2 0 = true /\
  is_final height_locked_transaction 3 5 = true.
Proof.
  assert (Hfinal : is_final height_locked_transaction 2 0 = true)
    by reflexivity.
  split; [exact Hfinal|].
  apply (is_final_monotone height_locked_transaction 2 0 3 5).
  - unfold is_uint32, uint32_modulus. lia.
  - unfold is_uint32, uint32_modulus. lia.
  - lia.
  - lia.
  - exact Hfinal.
Defined.

(** ** Total output value *)

Lemma total_output_value_sum (tx : transaction_type) :
  total_output_value tx = to_uint64 (output_sum tx).
Proof.
  unfold total_output_value, output_sum.
  change 0 with (to_uint64 0) at 1. now rewrite total_output_value_fold.
Qed.

Lemma output_sum_permutation (outs outs' : list transaction_output_type) :
  Permutation outs outs' ->
  fold_right (fun output acc => value output + acc) 0 outs
  = fold_right (fun output acc => value output + acc) 0 outs'.
Proof.
  induction 1 as [| o l l' _ IH | o o' l | l l' l'' _ IH1 _ IH2];
    cbn [fold_right]; lia.
Qed.

(** X4: the total does not depend on the order of the outputs, and it
    is always a 64-bit value. *)
Theorem total_output_value_permutation (tx tx' : transaction_type) :
  Permutation (outputs tx) (outputs tx') ->
  total_output_value tx = total_output_value tx' /\
  is_uint64 (total_output_value tx).
Proof.
  intros Hperm. rewrite !total_output_value_sum. split.
  - unfold output_sum. now rewrite (output_sum_permutation _ _ Hperm).
  - unfold is_uint64, to_uint64, uint64_modulus.
    apply Z.mod_pos_bound. lia.
Qed.

Lemma total_output_value_permutation_witness :
  Permutation
    (outputs overflowing_transaction)
    (outputs (with_outputs overflowing_transaction
                (rev (outputs overflowing_transaction)))) /\
  total_output_value overflowing_transaction
  = total_output_value
      (with_outputs overflowing_transaction
         (rev (outputs overflowing_transaction))).
Proof.
  assert (Hperm : Permutation
            (outputs overflowing_transaction)
            (outputs (with_outputs overflowing_transaction
                        (rev (outputs overflowing_transaction)))))
    by apply Permutation_rev.
  split; [exact Hperm|].
  exact (proj1 (total_output_value_permutation _ _ Hperm)).
Defined.

(** A further output adds its value to the total, modulo 2^64. *)
Lemma total_output_value_push_back (tx : transaction_type)
    (output : transaction_output_type) :
  total_output_value (with_outputs tx (outputs tx ++ [output]))
  = to_uint64 (total_output_value tx + value output).
Proof.
  unfold total_output_value, with_outputs. cbn [outputs].
  now rewrite fold_left_app.
Qed.

(** ** Merkle tree *)

Section MerkleLevels.
Context `{Sha256}.

Lemma pair_up_parents (it new_merkle : hash_list) :
  Nat.even (length it) = true ->
  pair_up it new_merkle = Returned (new_merkle ++ parents it).
Proof.
  revert new_merkle.
  induction it as [it IH] using (well_founded_induction
    (well_founded_ltof _ (@length hash_digest))).
  intros new_merkle Heven. destruct it as [|lhs [|rhs it']].
  - cbn. now rewrite app_nil_r.
  - discriminate.
  - cbn [pair_up parents]. rewrite hash_pair_returns. cbn [bind].
    rewrite IH; [|unfold ltof; simpl; lia | exact Heven].
    now rewrite <- app_assoc.
Qed.

Lemma parents_length (level : hash_list) :
  length (parents level) = Nat.div2 (length level).
Proof.
  induction level as [level IH] using (well_founded_induction
    (well_founded_ltof _ (@length hash_digest))).
  destruct level as [|lhs [|rhs level']]; [reflexivity | reflexivity |].
  cbn [parents length Nat.div2]. rewrite IH; [reflexivity|].
  unfold ltof. simpl. lia.
Qed.

Lemma next_level_length (level : hash_list) :
  length (next_level level) = Nat.div2 (S (length level)).
Proof.
  unfold next_level. rewrite parents_length.
  unfold duplicate_last_if_odd.
  destruct (Nat.odd (length level)) eqn:Hodd.
  - destruct (last level) as [back|] eqn:Hlast.
    + rewrite length_app, Nat.add_1_r. reflexivity.
    + apply last_None in Hlast. subst. discriminate.
  - rewrite <- Nat.negb_even in Hodd. apply negb_false_iff in Hodd.
    apply Nat.even_spec in Hodd as [half ->].
    now rewrite Nat.div2_succ_double, Nat.div2_double.
Qed.

Lemma merkle_rounds_next_level (level : hash_list) :
  (1 < length level)%nat ->
  merkle_rounds level = merkle_rounds (next_level level).
Proof.
  intros Hsize. rewrite (merkle_rounds_step level).
  destruct (Nat.ltb_spec 1 (length level)); [|lia].
  rewrite pair_up_parents by apply duplicate_last_if_odd_even.
  reflexivity.
Qed.

(** One round of the loop does not change the root. *)
Lemma merkle_root_level_step (level : hash_list) :
  (1 < length level)%nat ->
  merkle_root level = merkle_root (next_level level).
Proof.
  intros Hsize. rewrite (merkle_root_rounds level Hsize).
  rewrite (merkle_rounds_next_level level Hsize).
  pose proof (next_level_length level) as Hlen.
  destruct (next_level level) as [|first [|second rest]] eqn:Hnext.
  - exfalso. simpl in Hlen.
    destruct (length level) as [|[|n]]; simpl in *; lia.
  - rewrite merkle_rounds_step. reflexivity.
  - rewrite (merkle_root_rounds (first :: second :: rest));
      [reflexivity | simpl; lia].
Qed.

Lemma merkle_root_pair (h1 h2 : hash_digest) :
  merkle_root [h1; h2]
  = Returned (generate_sha256_hash (vec_to_list h1 ++ vec_to_list h2)).
Proof.
  rewrite merkle_root_level_step by (simpl; lia). reflexivity.
Qed.

(** X5: the root of two or more digests is the root of the next level:
    the parents of the digests taken two by two, the last digest paired
    with itself when their number is odd.  The next level has half as
    many digests, rounded up. *)
Theorem merkle_root_next_level (level : hash_list) :
  (2 <= length level)%nat ->
  merkle_root level = merkle_root (next_level level) /\
  length (next_level level) = Nat.div2 (S (length level)).
Proof.
  intros Hsize. split;
    [apply merkle_root_level_step; lia | apply next_level_length].
Qed.

(** X6: the shape of the tree over three and over four digests: the
    hash of the two parents, where the third digest of three is paired
    with itself. *)
Theorem merkle_root_three_and_four (h1 h2 h3 h4 : hash_digest) :
  let parent lhs rhs :=
    generate_sha256_hash (vec_to_list lhs ++ vec_to_list rhs) in
  merkle_root [h1; h2; h3]
  = Returned (parent (parent h1 h2) (parent h3 h3)) /\
  merkle_root [h1; h2; h3; h4]
  = Returned (parent (parent h1 h2) (parent h3 h4)).
Proof.
  cbn zeta. split.
  - rewrite merkle_root_level_step by (simpl; lia).
    change (next_level [h1; h2; h3]) with (parents [h1; h2; h3; h3]).
    cbn [parents]. apply merkle_root_pair.
  - rewrite merkle_root_level_step by (simpl; lia).
    change (next_level [h1; h2; h3; h4]) with (parents [h1; h2; h3; h4]).
    cbn [parents]. apply merkle_root_pair.
Qed.
End MerkleLevels.

Lemma merkle_root_next_level_witness :
  (2 <= length [null_hash; ones_hash; ones_hash])%nat /\
  @merkle_root prefix_hash [null_hash; ones_hash; ones_hash]
  = @merkle_root prefix_hash
      (@next_level prefix_hash [null_hash; ones_hash; ones_hash]).
Proof.
  assert (Hsize : (2 <= length [null_hash; ones_hash; ones_hash])%nat)
    by (simpl; lia).
  split; [exact Hsize|].
  exact (proj1 (@merkle_root_next_level prefix_hash
                  [null_hash; ones_hash; ones_hash] Hsize)).
Defined.

(** ** Hashing transactions *)

Section HashingProperties.
Context `{Sha256} `{SatoshiSerialize}.

Lemma write_at_whole (data buffer : data_chunk) :
  length data = length buffer -> write_at 0 data buffer = data.
Proof.
  intros Hlen. unfold write_at. rewrite take_0, app_nil_l.
  rewrite drop_ge by (simpl; lia). apply app_nil_r.
Qed.

(** X7: when the serializer writes as many bytes as it announces, the
    plain hash of a transaction is the hash of its serialization, and
    the hash with a hash type code is the hash of the serialization
    followed by the bytes of the code. *)
Theorem hash_transaction_serialized (tx : transaction_type)
    (hash_type_code : Z) :
  length (satoshi_save tx) = satoshi_raw_size tx ->
  hash_transaction tx = generate_sha256_hash (satoshi_save tx) /\
  hash_transaction_with_code tx hash_type_code
  = generate_sha256_hash (satoshi_save tx ++ uncast_type hash_type_code).
Proof.
  intros Hsize.
  unfold hash_transaction, hash_transaction_with_code, hash_transaction_impl,
    extend_data.
  rewrite write_at_whole by now rewrite length_replicate.
  split; reflexivity.
Qed.

Lemma push_back_all {A B : Type} (f : A -> B) (l : list A) (start : list B) :
  fold_left (fun collected x => collected ++ [f x]) l start
  = start ++ map f l.
Proof.
  revert start. induction l as [|x l IH]; intros start; cbn [fold_left map].
  - now rewrite app_nil_r.
  - rewrite IH, <- app_assoc. reflexivity.
Qed.

(** X8: the merkle root of a list of transactions is the root of their
    plain hashes, in order; the call always returns; the root of no
    transaction is the null hash and the root of one transaction is its
    hash. *)
Theorem generate_merkle_root_hashes (transactions : list transaction_type) :
  generate_merkle_root transactions
  = merkle_root (map hash_transaction transactions) /\
  (exists root, generate_merkle_root transactions = Returned root) /\
  generate_merkle_root [] = Returned null_hash /\
  (forall tx, generate_merkle_root [tx] = Returned (hash_transaction tx)).
Proof.
  assert (Hmap : forall txs,
            generate_merkle_root txs = merkle_root (map hash_transaction txs)).
  { intros txs. unfold generate_merkle_root, merkle_root.
    now rewrite push_back_all. }
  split; [apply Hmap|]. split.
  - rewrite Hmap. unfold merkle_root, outcome_map.
    destruct (build_merkle_tree_returns (map hash_transaction transactions))
      as (root & Hroot).
    exists root. now rewrite Hroot.
  - split; [reflexivity|]. intros tx. reflexivity.
Qed.
End HashingProperties.

Lemma hash_transaction_serialized_witness :
  length (@satoshi_save counting_serializer overflowing_transaction)
  = @satoshi_raw_size counting_serializer overflowing_transaction /\
  @hash_transaction prefix_hash counting_serializer overflowing_transaction
  = prefix_hash (@satoshi_save counting_serializer overflowing_transaction).
Proof.
  assert (Hsize :
    length (@satoshi_save counting_serializer overflowing_transaction)
    = @satoshi_raw_size counting_serializer overflowing_transaction)
    by reflexivity.
  split; [exact Hsize|].
  exact (proj1 (@hash_transaction_serialized prefix_hash counting_serializer
                  overflowing_transaction 1 Hsize)).
Defined.

(** ** Output selection: what is selected *)

Lemma sum_values_app (l l' : output_info_list) :
  sum_values (l ++ l') = sum_values l + sum_values l'.
Proof. induction l as [|c l IH]; cbn [app sum_values]; lia. Qed.

Lemma in_permutation_head {A : Type} (x : A) (l : list A) :
  In x l -> exists rest, Permutation ([x] ++ rest) l.
Proof.
  intros Hin. apply in_split in Hin as (l1 & l2 & ->).
  exists (l1 ++ l2). cbn [app]. apply Permutation_middle.
Qed.

Lemma descending_prefix (l : output_info_list) (k : nat)
    (last_taken : output_info_type) :
  descending l ->
  l !! k = Some last_taken ->
  Forall (fun c => output_info.value last_taken <= output_info.value c)
         (take (S k) l).
Proof.
  unfold descending. intros Hsorted. revert k.
  induction Hsorted as [|a l Hsorted IH Ha]; intros k Hk; [discriminate|].
  destruct k as [|k]; cbn in Hk.
  - injection Hk as <-. cbn. constructor; [lia | constructor].
  - cbn [take]. constructor; [|now apply IH].
    rewrite List.Forall_forall in Ha. apply Ha.
    apply list_elem_of_In. now apply list_elem_of_lookup_2 in Hk.
Qed.

Section SelectOutputsSelected.
Context `{StdAlgorithm} `{SelectOutputsAlgorithm}.

(** The loop hands back either no point or the points of a prefix of
    the range it walks. *)
Lemma accumulate_points (min_value : Z) (it : output_info_list) :
  forall (result_points : list output_point) (accum : Z),
  points (accumulate it min_value result_points accum) = [] \/
  exists k,
    points (accumulate it min_value result_points accum)
    = result_points ++ map output_info.point (take k it).
Proof.
  induction it as [|info it IH]; intros result_points accum.
  - now left.
  - cbn [accumulate]. destruct (_ >=? _).
    + right. exists 1%nat. reflexivity.
    + destruct (IH (result_points ++ [output_info.point info])
                   (to_uint64 (accum + output_info.value info)))
        as [Hnone | (k & Hk)]; [now left|].
      right. exists (S k). rewrite Hk, <- app_assoc. reflexivity.
Qed.

(** X9: the points a selection returns are the points of candidates,
    each candidate used at most once: the candidates split into the
    selected ones, in the order of the result, and the rest. *)
Theorem select_outputs_points_of_candidates (unspent : output_info_list)
    (min_value : Z) :
  exists result selected rest,
    select_outputs unspent min_value greedy = Returned result /\
    points result = map output_info.point selected /\
    Permutation (selected ++ rest) unspent.
Proof.
  unfold select_outputs. rewrite select_outputs_body_greedy by reflexivity.
  destruct unspent as [|first others].
  { exists select_outputs_result_default, [], []. now repeat split. }
  destruct (partition_lesser_greater (first :: others) min_value)
    as (Hperm & _ & _).
  cbn zeta in *. set (parts := std_partition _ _) in *.
  destruct (snd parts) as [|g greater'] eqn:Hgreater; cbn [std_min_element].
  - set (sorted := std_sort _ (fst parts)).
    assert (Hsorted : Permutation sorted (first :: others)).
    { unfold sorted. rewrite std_sort_permutation.
      now rewrite app_nil_r in Hperm. }
    destruct (accumulate_points min_value sorted [] 0) as [Hnone | (k & Hk)].
    + eexists _, [], sorted. split; [reflexivity|].
      cbn [outcome_map bind fst]. split; [exact Hnone | exact Hsorted].
    + eexists _, (take k sorted), (drop k sorted). split; [reflexivity|].
      cbn [outcome_map bind fst]. split; [exact Hk|].
      now rewrite take_drop.
  - destruct (min_element_from_spec g greater') as [Hm _].
    set (m := min_element_from _ g greater') in *.
    assert (Hin : In m (first :: others)).
    { apply (Permutation_in _ Hperm), in_or_app. now right. }
    destruct (in_permutation_head m _ Hin) as (rest & Hrest).
    eexists _, [m], rest. split; [reflexivity|].
    split; [reflexivity | exact Hrest].
Qed.

(** The selected candidates of a successful selection, when the total
    of the candidates stays below 2^64. *)
Lemma select_outputs_selected (unspent : output_info_list) (min_value : Z)
    (result : select_outputs_result) :
  is_uint64 min_value ->
  wf_output_info_list unspent ->
  sum_values unspent < uint64_modulus ->
  select_outputs unspent min_value greedy = Returned result ->
  points result <> [] ->
  exists selected rest,
    points result = map output_info.point selected /\
    Permutation (selected ++ rest) unspent /\
    sum_values selected = min_value + change result /\
    (0 < min_value ->
     Forall (fun c => change result < output_info.value c) selected).
Proof.
  intros Hmin Hwf Hsum Hresult Hpoints.
  destruct (List.Exists_dec (fun c => min_value <= output_info.value c)
              unspent (fun c => Z_le_dec min_value (output_info.value c)))
    as [Hsome|Hnone].
  - destruct (select_outputs_sufficient unspent min_value Hmin Hwf Hsome)
      as (result' & Hresult' & c & Hc & Hcovers & _ & Hpts & Hchange).
    rewrite Hresult in Hresult'. injection Hresult' as <-.
    destruct (in_permutation_head c _ Hc) as (rest & Hrest).
    exists [c], rest. split; [exact Hpts|]. split; [exact Hrest|].
    cbn [sum_values]. split; [lia|].
    intros Hpositive. constructor; [lia | constructor].
  - assert (Hnonempty : unspent <> []).
    { intros ->. unfold select_outputs in Hresult.
      rewrite select_outputs_body_greedy in Hresult by reflexivity.
      injection Hresult as <-. now apply Hpoints. }
    destruct (select_outputs_accumulates unspent min_value
                Hmin Hwf Hnonempty Hnone Hsum)
      as (result' & Hresult' & Hfail & Hok).
    rewrite Hresult in Hresult'. injection Hresult' as <-.
    destruct (Z.lt_ge_cases (sum_values unspent) min_value)
      as [Hshort|Henough].
    { rewrite (Hfail Hshort) in Hpoints. now contradiction Hpoints. }
    destruct (Hok Henough)
      as (sorted & k & Hperm & Hdesc & Hk & Hbefore & Hat & Hpts & Hchange).
    rewrite filter_id in Hperm.
    2: { apply List.Forall_Exists_neg in Hnone.
         eapply List.Forall_impl; [|exact Hnone]. cbn beta.
         intros c Hc. apply Z.ltb_lt. lia. }
    exists (take (S k) sorted), (drop (S k) sorted).
    split; [exact Hpts|]. split; [now rewrite take_drop|].
    split; [lia|]. intros _.
    destruct (lookup_lt_is_Some_2 sorted k Hk) as (last_taken & Hlast).
    pose proof (descending_prefix sorted k last_taken Hdesc Hlast) as Hprefix.
    assert (Hlt : change result < output_info.value last_taken).
    { rewrite Hchange, (take_S_r _ _ _ Hlast), sum_values_app.
      cbn [sum_values]. specialize (Hbefore k (Nat.le_refl k)). lia. }
    eapply List.Forall_impl; [|exact Hprefix]. cbn beta. intros c Hc. lia.
Qed.

(** X10: the selected candidates pay for the target and the change:
    when the total of the candidates stays below 2^64, the values of
    the candidates of a successful selection add up to the target plus
    the change. *)
Theorem select_outputs_balance (unspent : output_info_list) (min_value : Z)
    (result : select_outputs_result) :
  is_uint64 min_value ->
  wf_output_info_list unspent ->
  sum_values unspent < 2 ^ 64 ->
  select_outputs unspent min_value greedy = Returned result ->
  points result <> [] ->
  exists selected rest,
    points result = map output_info.point selected /\
    Permutation (selected ++ rest) unspent /\
    sum_values selected = min_value + change result.
Proof.
  intros Hmin Hwf Hsum Hresult Hpoints.
  destruct (select_outputs_selected unspent min_value result
              Hmin Hwf Hsum Hresult Hpoints)
    as (selected & rest & Hpts & Hperm & Hbalance & _).
  now exists selected, rest.
Qed.

(** X11: no selected candidate is superfluous: for a target above zero
    and a total of the candidates below 2^64, the change of a
    successful selection is smaller than the value of every selected
    candidate, so the selection without any one of them falls short of
    the target. *)
Theorem select_outputs_no_superfluous_candidate (unspent : output_info_list)
    (min_value : Z) (result : select_outputs_result) :
  is_uint64 min_value ->
  0 < min_value ->
  wf_output_info_list unspent ->
  sum_values unspent < 2 ^ 64 ->
  select_outputs unspent min_value greedy = Returned result ->
  points result <> [] ->
  exists selected rest,
    points result = map output_info.point selected /\
    Permutation (selected ++ rest) unspent /\
    Forall (fun c => sum_values selected - output_info.value c < min_value)
           selected.
Proof.
  intros Hmin Hpositive Hwf Hsum Hresult Hpoints.
  destruct (select_outputs_selected unspent min_value result
              Hmin Hwf Hsum Hresult Hpoints)
    as (selected & rest & Hpts & Hperm & Hbalance & Hsmall).
  exists selected, rest. split; [exact Hpts|]. split; [exact Hperm|].
  eapply List.Forall_impl; [|exact (Hsmall Hpositive)]. cbn beta.
  intros c Hc. lia.
Qed.
End SelectOutputsSelected.

Lemma select_outputs_balance_witness :
  is_uint64 100 /\
  wf_output_info_list three_candidates /\
  sum_values three_candidates < 2 ^ 64 /\
  exists selected rest,
    [ {| hash := null_hash; index := 2 |};
      {| hash := null_hash; index := 1 |} ]
    = map output_info.point selected /\
    Permutation (selected ++ rest) three_candidates /\
    sum_values selected = 100 + 30.
Proof.
  assert (Hmin : is_uint64 100) by (unfold is_uint64, uint64_modulus; lia).
  assert (Hwf : wf_output_info_list three_candidates)
    by (apply wf_candidates; reflexivity).
  assert (Hsum : sum_values three_candidates < 2 ^ 64) by (cbn; lia).
  split; [exact Hmin|]. split; [exact Hwf|]. split; [exact Hsum|].
  apply (@select_outputs_balance reference_algorithm int_enumeration
           three_candidates 100
           {| points := [ {| hash := null_hash; index := 2 |};
                          {| hash := null_hash; index := 1 |} ];
              change := 30 |} Hmin Hwf Hsum).
  - vm_compute. reflexivity.
  - discriminate.
Defined.

Lemma select_outputs_no_superfluous_candidate_witness :
  is_uint64 100 /\
  0 < 100 /\
  wf_output_info_list three_candidates /\
  sum_values three_candidates < 2 ^ 64 /\
  exists selected rest,
    [ {| hash := null_hash; index := 2 |};
      {| hash := null_hash; index := 1 |} ]
    = map output_info.point selected /\
    Permutation (selected ++ rest) three_candidates /\
    Forall (fun c => sum_values selected - output_info.value c < 100)
           selected.
Proof.
  assert (Hmin : is_uint64 100) by (unfold is_uint64, uint64_modulus; lia).
  assert (Hpositive : 0 < 100) by lia.
  assert (Hwf : wf_output_info_list three_candidates)
    by (apply wf_candidates; reflexivity).
  assert (Hsum : sum_values three_candidates < 2 ^ 64) by (cbn; lia).
  split; [exact Hmin|]. split; [exact Hpositive|].
  split; [exact Hwf|]. split; [exact Hsum|].
  apply (@select_outputs_no_superfluous_candidate
           reference_algorithm int_enumeration three_candidates 100
           {| points := [ {| hash := null_hash; index := 2 |};
                          {| hash := null_hash; index := 1 |} ];
              change := 30 |} Hmin Hpositive Hwf Hsum).
  - vm_compute. reflexivity.
  - discriminate.
Defined.

(** * Properties of format.cpp *)

(** ** Decoding hexadecimal text *)

Lemma hex_pairs_length (hex_str : std_string) :
  length (hex_pairs hex_str) = (length hex_str / 2)%nat.
Proof.
  induction hex_str as [hex_str IH] using (well_founded_induction
    (well_founded_ltof _ (@length ascii))).
  destruct hex_str as [|c1 [|c2 hex_str']]; [reflexivity | reflexivity |].
  cbn [hex_pairs length]. rewrite IH by (unfold ltof; simpl; lia).
  change (S (S (length hex_str'))) with (1 * 2 + length hex_str')%nat.
  rewrite Nat.div_add_l by lia. reflexivity.
Qed.

Section DecodeHex.
Context `{StringLibrary}.

(** The loop, started at an even position with the bytes before that
    position filled in. *)
Lemma decode_pairs_from (rest : std_string) :
  Forall (fun pair => hex_extract pair <= 255) (hex_pairs rest) ->
  forall filled : data_chunk,
  decode_pairs rest (2 * length filled)
    (filled ++ replicate (length rest / 2) x00)
  = Returned
      (if forallb (fun pair => negb (hex_extract pair =? -1)) (hex_pairs rest)
       then filled
            ++ map (fun pair => to_uint8 (hex_extract pair)) (hex_pairs rest)
       else []).
Proof.
  induction rest as [rest IH] using (well_founded_induction
    (well_founded_ltof _ (@length ascii))).
  intros Hrange filled.
  destruct rest as [|c1 [|c2 rest']].
  - cbn. now rewrite app_nil_r.
  - cbn. now rewrite app_nil_r.
  - cbn [decode_pairs hex_pairs forallb map length] in *.
    inversion Hrange as [|? ? Hpair Hrest]; subst.
    change (2 <=? S (S (length rest')))%nat with true.
    cbn [BITCOIN_ASSERT bind].
    destruct (Z.eqb_spec (hex_extract [c1; c2]) (-1)) as [|_];
      [reflexivity|].
    cbn [negb andb].
    apply Z.leb_le in Hpair. rewrite Hpair. cbn [BITCOIN_ASSERT bind].
    change (S (S (length rest'))) with (1 * 2 + length rest')%nat.
    rewrite Nat.div_add_l by lia. cbn [Nat.add replicate].
    rewrite (Nat.mul_comm 2), Nat.div_mul by lia.
    rewrite length_app. cbn [length].
    destruct (Nat.ltb_spec (length filled)
                (length filled + S (length (replicate (length rest' / 2) x00))))
      as [_|Hout]; [|lia].
    unfold data_chunk in *.
    rewrite insert_app_r_alt by lia. rewrite Nat.sub_diag.
    cbn [insert list_insert].
    specialize (IH rest' ltac:(unfold ltof; simpl; lia) Hrest
                  (filled ++ [to_uint8 (hex_extract [c1; c2])])).
    rewrite length_app in IH. cbn [length] in IH.
    replace (2 * (length filled + 1))%nat
      with (length filled * 2 + 2)%nat in IH by lia.
    rewrite <- !app_assoc in IH. cbn [app] in IH. exact IH.
Qed.

(** X12: [decode_hex] turns every pair of characters of the trimmed
    text into one byte, in order, and leaves out a last single
    character; when some pair leaves -1 in [val] the result is the
    empty chunk instead.  This holds as long as no pair is read as more
    than 0xff, which is what the function asserts. *)
Theorem decode_hex_pairs (hex_str : std_string) :
  Forall (fun pair => hex_extract pair <= 255) (hex_pairs (trim hex_str)) ->
  decode_hex hex_str
  = Returned
      (if forallb (fun pair => negb (hex_extract pair =? -1))
                  (hex_pairs (trim hex_str))
       then map (fun pair => to_uint8 (hex_extract pair))
                (hex_pairs (trim hex_str))
       else []) /\
  length (hex_pairs (trim hex_str)) = (length (trim hex_str) / 2)%nat.
Proof.
  intros Hrange. split; [|apply hex_pairs_length].
  unfold decode_hex.
  exact (decode_pairs_from (trim hex_str) Hrange []).
Qed.
End DecodeHex.

Lemma decode_hex_pairs_witness :
  Forall (fun pair => @hex_extract plain_hex pair <= 255)
         (hex_pairs (@trim plain_hex
                       ["0"; "a"; "f"; "f"; "1"]%char)) /\
  @decode_hex plain_hex ["0"; "a"; "f"; "f"; "1"]%char
  = Returned [x0a; xff].
Proof.
  assert (Hrange :
    Forall (fun pair => @hex_extract plain_hex pair <= 255)
           (hex_pairs (@trim plain_hex ["0"; "a"; "f"; "f"; "1"]%char))).
  { repeat constructor; vm_compute; discriminate. }
  split; [exact Hrange|].
  exact (proj1 (@decode_hex_pairs plain_hex
                  ["0"; "a"; "f"; "f"; "1"]%char Hrange)).
Defined.

(** ** Decimal digits *)

Lemma digit_value_digit (d : Z) :
  0 <= d < 10 -> digit_value (digit d) = d.
Proof.
  intros Hd. unfold digit_value, digit.
  rewrite nat_ascii_embedding by lia. lia.
Qed.

Lemma digits_value_from (digits : std_string) (start : Z) :
  fold_left (fun acc c => acc * 10 + digit_value c) digits start
  = start * 10 ^ Z.of_nat (length digits) + digits_value digits.
Proof.
  unfold digits_value. revert start.
  induction digits as [|c digits IH]; intros start.
  - cbn. lia.
  - cbn [fold_left length]. rewrite IH, (IH (0 * 10 + digit_value c)).
    rewrite Nat2Z.inj_succ, Z.pow_succ_r by lia. lia.
Qed.

Lemma digits_value_app (digits digits' : std_string) :
  digits_value (digits ++ digits')
  = digits_value digits * 10 ^ Z.of_nat (length digits')
    + digits_value digits'.
Proof.
  unfold digits_value at 1. rewrite fold_left_app.
  fold (digits_value digits). apply digits_value_from.
Qed.

Lemma digits_value_zeros (n : nat) :
  digits_value (replicate n "0"%char) = 0.
Proof.
  induction n as [|n IH]; [reflexivity|].
  change (replicate (S n) "0"%char) with (["0"%char] ++ replicate n "0"%char).
  rewrite digits_value_app, IH. reflexivity.
Qed.

Lemma decimal_value (places : nat) (n : Z) :
  0 <= n < 10 ^ Z.of_nat places ->
  digits_value (decimal places n) = n.
Proof.
  revert n. induction places as [|places IH]; intros n Hn.
  - cbn in *. lia.
  - cbn [decimal]. destruct (Z.ltb_spec n 10) as [Hsmall|Hlarge].
    + unfold digits_value. cbn [fold_left].
      rewrite digit_value_digit by lia. lia.
    + rewrite digits_value_app. cbn [length].
      rewrite Nat2Z.inj_succ, Z.pow_succ_r in Hn by lia.
      rewrite IH.
      * unfold digits_value at 1. cbn [fold_left].
        rewrite digit_value_digit by (apply Z.mod_pos_bound; lia).
        pose proof (Z.div_mod n 10). lia.
      * split; [apply Z.div_pos; lia|].
        apply Z.div_lt_upper_bound; lia.
Qed.

Lemma decimal_length (places : nat) :
  forall (n : Z) (k : nat),
  0 <= n < 10 ^ Z.of_nat k ->
  (1 <= k <= places)%nat ->
  (1 <= length (decimal places n) <= k)%nat.
Proof.
  induction places as [|places IH]; intros n k Hn Hk; [lia|].
  cbn [decimal]. destruct (Z.ltb_spec n 10) as [Hsmall|Hlarge].
  - cbn [length]. lia.
  - rewrite length_app. cbn [length].
    destruct k as [|[|k]]; [lia | cbn in Hn; lia |].
    rewrite Nat2Z.inj_succ, Z.pow_succ_r in Hn by lia.
    destruct (IH (n / 10) (S k)) as [Hlow Hhigh]; [|lia|lia].
    split; [apply Z.div_pos; lia|].
    apply Z.div_lt_upper_bound; lia.
Qed.

Lemma decimal_digits (places : nat) (n : Z) :
  0 <= n ->
  Forall (fun c => 0 <= digit_value c < 10) (decimal places n).
Proof.
  revert n. induction places as [|places IH]; intros n Hn; [constructor|].
  cbn [decimal]. destruct (Z.ltb_spec n 10) as [Hsmall|Hlarge].
  - constructor; [|constructor]. rewrite digit_value_digit; lia.
  - apply Forall_app. split.
    + apply IH. apply Z.div_pos; lia.
    + constructor; [|constructor].
      pose proof (Z.mod_pos_bound n 10 ltac:(lia)).
      rewrite digit_value_digit; lia.
Qed.

(** ** Trimming on the right *)

Lemma trim_right_if_spec (pred : ascii -> bool) (input : std_string) :
  exists tail,
    input = trim_right_if pred input ++ tail /\
    Forall (fun c => pred c = true) tail /\
    (forall c, last (trim_right_if pred input) = Some c -> pred c = false).
Proof.
  induction input as [|c input (tail & Hinput & Htail & Hlast)].
  - exists []. repeat split; [constructor | discriminate].
  - cbn [trim_right_if].
    destruct (trim_right_if pred input) as [|first trimmed] eqn:Htrim.
    + destruct (pred c) eqn:Hc.
      * exists (c :: tail). cbn [app] in *. subst tail.
        repeat split; [now constructor | discriminate].
      * exists tail. cbn [app] in *. subst tail.
        repeat split; [exact Htail|].
        intros c' [= <-]. exact Hc.
    + exists tail. split; [cbn [app]; now rewrite Hinput at 1|].
      split; [exact Htail|].
      intros c' Hc'. apply Hlast. exact Hc'.
Qed.

Lemma zeros_only (tail : std_string) :
  Forall (fun c => is_any_of ["0"%char] c = true) tail ->
  tail = replicate (length tail) "0"%char.
Proof.
  induction 1 as [|c tail Hc _ IH]; [reflexivity|].
  cbn [length replicate]. rewrite <- IH. f_equal.
  unfold is_any_of in Hc. cbn [existsb] in Hc.
  rewrite orb_false_r in Hc. now apply Ascii.eqb_eq in Hc.
Qed.

(** ** Splitting at the point *)

Lemma split_at_point_digits (whole rest : std_string) :
  Forall (fun c => 0 <= digit_value c < 10) whole ->
  split_at_point whole = (whole, []) /\
  split_at_point (whole ++ ["."%char] ++ rest) = (whole, rest).
Proof.
  induction 1 as [|c whole Hc _ [IHwhole IHrest]]; [now split|].
  assert (Hpoint : Ascii.eqb c "."%char = false).
  { apply Ascii.eqb_neq. intros ->.
    assert (Hvalue : digit_value "."%char = -2) by reflexivity. lia. }
  cbn [split_at_point app] in *. rewrite Hpoint, IHwhole, IHrest.
  now split.
Qed.

(** ** Amounts as text *)

(** The digits after the point: the eight-digit rendering of the part
    of the amount below one coin, without its trailing zeros. *)
Lemma fraction_digits (minor : Z) :
  0 < minor < 100000000 ->
  let minor_str := lexical_cast minor in
  let padded_minor :=
    replicate (8 - length minor_str) "0"%char ++ minor_str in
  let fraction := trim_right_if (is_any_of ["0"%char]) padded_minor in
  (length minor_str <= 8)%nat /\
  (1 <= length fraction <= 8)%nat /\
  Forall (fun c => 0 <= digit_value c < 10) fraction /\
  last fraction <> Some "0"%char /\
  digits_value fraction * 10 ^ (8 - Z.of_nat (length fraction)) = minor.
Proof.
  intros Hminor. cbn zeta.
  set (minor_str := lexical_cast minor).
  set (padded_minor := replicate (8 - length minor_str) "0"%char ++ minor_str).
  assert (Hlen : (1 <= length minor_str <= 8)%nat).
  { apply decimal_length; [|lia]. change (10 ^ Z.of_nat 8) with 100000000.
    lia. }
  assert (Hpadded_len : length padded_minor = 8%nat).
  { unfold padded_minor. rewrite length_app, length_replicate. lia. }
  assert (Hpadded_value : digits_value padded_minor = minor).
  { unfold padded_minor. rewrite digits_value_app, digits_value_zeros.
    apply decimal_value. lia. }
  assert (Hpadded_digits :
            Forall (fun c => 0 <= digit_value c < 10) padded_minor).
  { unfold padded_minor. apply Forall_app. split.
    - apply Forall_replicate.
      assert (Hzero : digit_value "0"%char = 0) by reflexivity. lia.
    - apply decimal_digits. lia. }
  destruct (trim_right_if_spec (is_any_of ["0"%char]) padded_minor)
    as (tail & Hsplit & Htail & Hlast).
  set (fraction := trim_right_if (is_any_of ["0"%char]) padded_minor) in *.
  apply zeros_only in Htail.
  assert (Hsum : (length fraction + length tail = 8)%nat).
  { rewrite <- Hpadded_len, Hsplit at 1. now rewrite length_app. }
  assert (Hvalue : digits_value fraction * 10 ^ Z.of_nat (length tail)
                   = minor).
  { rewrite <- Hpadded_value, Hsplit at 1.
    rewrite digits_value_app, Htail, digits_value_zeros.
    rewrite length_replicate. lia. }
  split; [lia|]. split.
  - split; [|lia]. destruct fraction; [cbn in Hvalue; lia | cbn; lia].
  - split.
    + rewrite Hsplit in Hpadded_digits.
      now apply Forall_app in Hpadded_digits.
    + split.
      * intros Hzero. now apply Hlast in Hzero.
      * rewrite <- Hvalue. do 2 f_equal. lia.
Qed.

Section SatoshiToBtc.
Context `{Constants}.
Hypothesis one_coin : coin_price 1 = 100000000.

(** With one coin at 10^8 neither assertion fails, and the padding
    count does not wrap around. *)
Lemma satoshi_to_btc_text (value : Z) :
  is_uint64 value ->
  satoshi_to_btc value
  = Returned
      (Some
         (lexical_cast (value / 100000000)
          ++ if value mod 100000000 =? 0 then []
             else ["."%char]
                  ++ trim_right_if (is_any_of ["0"%char])
                       (replicate
                          (8 - length (lexical_cast (value mod 100000000)))
                          "0"%char
                        ++ lexical_cast (value mod 100000000)))).
Proof.
  intros [Hlow Hhigh]. unfold uint64_modulus in Hhigh.
  unfold satoshi_to_btc. rewrite one_coin.
  pose proof (Z.mul_div_le value 100000000 ltac:(lia)) as Hmajor.
  pose proof (Z.div_pos value 100000000 Hlow ltac:(lia)) as Hmajor_pos.
  pose proof (Z.mod_pos_bound value 100000000 ltac:(lia)) as Hminor.
  assert (Hassert1 : (value >=? value / 100000000) = true).
  { rewrite Z.geb_leb. apply Z.leb_le. lia. }
  rewrite Hassert1. cbn [BITCOIN_ASSERT bind].
  rewrite (to_uint64_small (value / 100000000 * 100000000))
    by (unfold is_uint64, uint64_modulus; lia).
  replace (value - value / 100000000 * 100000000)
    with (value mod 100000000) by (rewrite Z.mod_eq; lia).
  rewrite (to_uint64_small (value mod 100000000))
    by (unfold is_uint64, uint64_modulus; lia).
  assert (Hassert2 : (value mod 100000000 <? 100000000) = true)
    by (apply Z.ltb_lt; lia).
  rewrite Hassert2. cbn [BITCOIN_ASSERT bind].
  rewrite Z.gtb_ltb.
  destruct (Z.eqb_spec (value mod 100000000) 0) as [Hwhole|Hpart].
  - rewrite Hwhole. cbn [Z.ltb Z.compare]. now rewrite app_nil_r.
  - destruct (Z.ltb_spec 0 (value mod 100000000)); [|lia].
    destruct (fraction_digits (value mod 100000000) ltac:(lia))
      as (Hlen & _).
    apply Nat.leb_le in Hlen. rewrite Hlen. reflexivity.
Qed.

(** X13: with one coin at 10^8, [satoshi_to_btc] returns a text for
    every 64-bit amount.  A whole number of coins is written as that
    number alone; any other amount as the number of coins, a point, and
    between one and eight digits the last of which is not 0. *)
Theorem satoshi_to_btc_shape (value : Z) :
  is_uint64 value ->
  exists text,
    satoshi_to_btc value = Returned (Some text) /\
    (value mod 100000000 = 0 ->
     text = lexical_cast (value / 100000000)) /\
    (value mod 100000000 <> 0 ->
     exists fraction,
       text = lexical_cast (value / 100000000) ++ ["."%char] ++ fraction /\
       (1 <= length fraction <= 8)%nat /\
       Forall (fun c => 0 <= digit_value c < 10) fraction /\
       last fraction <> Some "0"%char).
Proof.
  intros Hvalue. eexists. split; [now apply satoshi_to_btc_text|].
  pose proof (Z.mod_pos_bound value 100000000 ltac:(lia)) as Hminor.
  split.
  - intros ->. cbn [Z.eqb]. now rewrite app_nil_r.
  - intros Hpart.
    destruct (Z.eqb_spec (value mod 100000000) 0) as [|_]; [contradiction|].
    destruct (fraction_digits (value mod 100000000) ltac:(lia))
      as (_ & Hlen & Hdigits & Hlast & _).
    eexists. split; [reflexivity|]. now repeat split.
Qed.

(** X14: with one coin at 10^8, the amount can be read back from the
    text [satoshi_to_btc] returns: the digits before the point times
    10^8, plus the digits after the point scaled to eight places, give
    the amount.  So different amounts are written differently. *)
Theorem satoshi_to_btc_round_trip (value : Z) :
  is_uint64 value ->
  exists text,
    satoshi_to_btc value = Returned (Some text) /\
    btc_to_satoshi text = value.
Proof.
  intros Hvalue. eexists. split; [now apply satoshi_to_btc_text|].
  destruct Hvalue as [Hlow Hhigh]. unfold uint64_modulus in Hhigh.
  pose proof (Z.mod_pos_bound value 100000000 ltac:(lia)) as Hminor.
  pose proof (Z.div_pos value 100000000 Hlow ltac:(lia)) as Hmajor_pos.
  assert (Hmajor : digits_value (lexical_cast (value / 100000000))
                   = value / 100000000).
  { apply decimal_value. split; [exact Hmajor_pos|].
    apply Z.div_lt_upper_bound; [lia|].
    change (10 ^ Z.of_nat 20) with 100000000000000000000. lia. }
  pose proof (decimal_digits 20 (value / 100000000) Hmajor_pos)
    as Hmajor_digits.
  fold (lexical_cast (value / 100000000)) in Hmajor_digits.
  unfold btc_to_satoshi.
  destruct (Z.eqb_spec (value mod 100000000) 0) as [Hwhole|Hpart].
  - rewrite app_nil_r.
    rewrite (proj1 (split_at_point_digits _ [] Hmajor_digits)).
    cbn [fst snd length]. rewrite Hmajor.
    change (digits_value []) with 0.
    pose proof (Z.div_mod value 100000000 ltac:(lia)). lia.
  - destruct (fraction_digits (value mod 100000000) ltac:(lia))
      as (_ & _ & _ & _ & Hfraction).
    cbn zeta in Hfraction.
    rewrite (proj2 (split_at_point_digits _ _ Hmajor_digits)).
    cbn [fst snd]. rewrite Hmajor, Hfraction.
    pose proof (Z.div_mod value 100000000 ltac:(lia)). lia.
Qed.
End SatoshiToBtc.

Lemma satoshi_to_btc_shape_witness :
  @coin_price satoshi_coin 1 = 100000000 /\
  is_uint64 150000000 /\
  exists text,
    @satoshi_to_btc satoshi_coin 150000000 = Returned (Some text) /\
    (150000000 mod 100000000 = 0 ->
     text = lexical_cast (150000000 / 100000000)) /\
    (150000000 mod 100000000 <> 0 ->
     exists fraction,
       text = lexical_cast (150000000 / 100000000) ++ ["."%char] ++ fraction /\
       (1 <= length fraction <= 8)%nat /\
       Forall (fun c => 0 <= digit_value c < 10) fraction /\
       last fraction <> Some "0"%char).
Proof.
  assert (Hcoin : @coin_price satoshi_coin 1 = 100000000) by reflexivity.
  assert (Hvalue : is_uint64 150000000)
    by (unfold is_uint64, uint64_modulus; lia).
  split; [exact Hcoin|]. split; [exact Hvalue|].
  exact (@satoshi_to_btc_shape satoshi_coin Hcoin 150000000 Hvalue).
Defined.

Lemma satoshi_to_btc_round_trip_witness :
  @coin_price satoshi_coin 1 = 100000000 /\
  is_uint64 150000000 /\
  exists text,
    @satoshi_to_btc satoshi_coin 150000000 = Returned (Some text) /\
    btc_to_satoshi text = 150000000.
Proof.
  assert (Hcoin : @coin_price satoshi_coin 1 = 100000000) by reflexivity.
  assert (Hvalue : is_uint64 150000000)
    by (unfold is_uint64, uint64_modulus; lia).
  split; [exact Hcoin|]. split; [exact Hvalue|].
  exact (@satoshi_to_btc_round_trip satoshi_coin Hcoin 150000000 Hvalue).
Defined.

Example satoshi_to_btc_one_and_a_half :
  @satoshi_to_btc satoshi_coin 150000000
  = Returned (Some ["1"; "."; "5"]%char).
Proof. vm_compute. reflexivity. Qed.
